(** * Nanoparticle / wavelength combination search: model and properties

    A shallow embedding of [script.py]: the table lookups
    ([calculate_absorption], [calculate_scattering]), the cross-talk score
    ([calculate_S_score]) and the exhaustive search
    ([find_best_combination]).

    Numbers.  The script computes with the numeric columns of the data
    files, in machine arithmetic.  Two embeddings are given.  The first
    takes the numbers as exact rationals ([Q]), with [float('-inf')] as the
    extra element [NegInf] of [score]; it carries the properties that do
    not depend on the arithmetic: what is enumerated, what is scored, which
    exceptions are raised, how the files are loaded.  The second (module
    [Numeric]) takes the numbers with the operations the program applies to
    them, binary64 among them, and carries the properties of the scores
    themselves: the scoring formula, the optimality of the result, ties and
    the scaling of the weights.

    Containers.  The catalog is a Python [dict] whose iteration order is
    observable (it fixes the enumeration order), so it is an association
    list; [data[k]] reads the first binding of [k].  A data frame is the
    list of its rows. *)

From Stdlib Require Import String List ZArith QArith Lia Lqa ListSet Bool.
From Stdlib Require Import Sorted Permutation Ascii Factorial.
From Stdlib Require Import PrimFloat SpecFloat FloatOps FloatAxioms.
Import ListNotations.
Open Scope Q_scope.

(* Decimal literals are read as the nearest binary64 number, as the script's
   parser does. *)
Set Warnings "-inexact-float".

(** ** Data model *)

(** One row of a data frame, columns ["nm"], ["Qext"], ["Qsca"], ["Qabs"]. *)
Record row : Type := mkRow {
  nm : Q;
  Qext : Q;
  Qsca : Q;
  Qabs : Q }.

Definition dataframe : Type := list row.

(** [nanoparticleData]: identifier -> data frame, in insertion order. *)
Definition catalog : Type := list (string * dataframe).

(** [weights = {'scattering': _, 'absorption': _}]. *)
Record weights : Type := mkWeights {
  scattering : Q;
  absorption : Q }.

(** A (nanoparticle, wavelength) pairing and a tuple of them. *)
Definition pairing : Type := (string * Q)%type.
Definition combination : Type := list pairing.

(** The running maximum: [float('-inf')] or a computed score. *)
Inductive score : Type :=
| NegInf
| Fin (q : Q).

(** The exceptions the script can raise. *)
Inductive error : Type :=
| KeyError (k : string)                       (* data[nanoparticle] *)
| IndexError                                  (* nanoparticles[0], combination[i] *)
| WavelengthNotFound (np : string) (wl : Q)   (* the ValueError of the lookups *)
| NegativeR.                                  (* combinations(_, n) with n < 0 *)

Inductive result (A : Type) : Type :=
| Ok (a : A)
| Err (e : error).
Arguments Ok {A} a.
Arguments Err {A} e.

Definition bind {A B : Type} (m : result A) (k : A -> result B) : result B :=
  match m with
  | Ok a => k a
  | Err e => Err e
  end.

Notation "x <- m ;; k" := (bind m (fun x => k))
  (at level 61, m at next level, right associativity).
Notation "' pat <- m ;; k" := (bind m (fun x => match x with pat => k end))
  (at level 61, pat pattern, m at next level, right associativity).

(** ** Table lookups *)

(** [data[nanoparticle]]. *)
Fixpoint getitem (data : catalog) (k : string) : result dataframe :=
  match data with
  | [] => Err (KeyError k)
  | (k', df) :: rest => if String.eqb k' k then Ok df else getitem rest k
  end.

(** [df.loc[pd.to_numeric(df.iloc[:, 0]) == wavelength]]. *)
Definition loc_wavelength (df : dataframe) (wavelength : Q) : dataframe :=
  filter (fun r => Qeq_bool (nm r) wavelength) df.

Definition calculate_absorption (data : catalog) (nanoparticle : string)
    (wavelength : Q) : result Q :=
  df <- getitem data nanoparticle ;;
  match loc_wavelength df wavelength with
  | r :: _ => Ok (Qabs r)
  | [] => Err (WavelengthNotFound nanoparticle wavelength)
  end.

Definition calculate_scattering (data : catalog) (nanoparticle : string)
    (wavelength : Q) : result Q :=
  df <- getitem data nanoparticle ;;
  match loc_wavelength df wavelength with
  | r :: _ => Ok (Qsca r)
  | [] => Err (WavelengthNotFound nanoparticle wavelength)
  end.

(** ** The score *)

(** [combination[i]] for [i >= 0]. *)
Definition index (c : combination) (i : nat) : result pairing :=
  match nth_error c i with
  | Some p => Ok p
  | None => Err IndexError
  end.

(** [for i in idx: acc = body(i, acc)], stopping at the first exception. *)
Fixpoint for_each {I S : Type} (idx : list I) (body : I -> S -> result S)
    (acc : S) : result S :=
  match idx with
  | [] => Ok acc
  | i :: rest => acc' <- body i acc ;; for_each rest body acc'
  end.

(** [range(n)]: empty when [n <= 0]. *)
Definition range (n : Z) : list nat := seq 0 (Z.to_nat n).

Section Score.

Variables (n : Z) (c : combination) (data : catalog) (w : weights).

(** Body of the inner loop over [j], for the pair at position [i] whose
    wavelength is [wavelength]. *)
Definition penalty_body (i : nat) (wavelength : Q) (j : nat)
    (total_penalty : Q) : result Q :=
  if Nat.eqb i j then Ok total_penalty
  else
    '(other_nanoparticle, _) <- index c j ;;
    other_absorption <- calculate_absorption data other_nanoparticle wavelength ;;
    other_scattering <- calculate_scattering data other_nanoparticle wavelength ;;
    Ok (total_penalty
        + (scattering w * other_scattering + absorption w * other_absorption)).

(** Body of the outer loop over [i]. *)
Definition score_body (i : nat) (total_score : Q) : result Q :=
  '(nanoparticle, wavelength) <- index c i ;;
  absorptionCrossSection <- calculate_absorption data nanoparticle wavelength ;;
  scatteringCrossSection <- calculate_scattering data nanoparticle wavelength ;;
  let totalCrossSectionScore :=
    scattering w * scatteringCrossSection
    + absorption w * absorptionCrossSection in
  total_penalty <- for_each (range n) (penalty_body i wavelength) 0 ;;
  let nanoparticle_score := totalCrossSectionScore - total_penalty in
  Ok (total_score + nanoparticle_score).

Definition calculate_S_score : result Q :=
  for_each (range n) score_body 0.

End Score.

(** ** The search *)

(** [itertools.combinations(l, r)] for [r >= 0]: the length-[r]
    subsequences of [l], in lexicographic order of their positions. *)
Fixpoint combinations {A : Type} (l : list A) (r : nat) : list (list A) :=
  match r, l with
  | O, _ => [[]]
  | S _, [] => []
  | S r', x :: xs => map (cons x) (combinations xs r') ++ combinations xs r
  end.

(** [Series.unique()]: the distinct values, in order of first appearance. *)
Fixpoint unique (l : list Q) : list Q :=
  match l with
  | [] => []
  | x :: xs => x :: filter (fun y => negb (Qeq_bool y x)) (unique xs)
  end.

(** [[(np, wl) for np in nanoparticles for wl in wavelengths]]. *)
Definition pairings (nanoparticles : list string) (wavelengths : list Q)
  : list pairing :=
  flat_map (fun np => map (fun wl => (np, wl)) wavelengths) nanoparticles.

(** The check of lines 82-90: walk the tuple, stop at the first identifier
    already in [used_nanoparticles]. *)
Fixpoint valid_from (used_nanoparticles : set string) (c : combination) : bool :=
  match c with
  | [] => true
  | (np, _) :: rest =>
      if set_mem string_dec np used_nanoparticles then false
      else valid_from (set_add string_dec np used_nanoparticles) rest
  end.

Definition valid_combination (c : combination) : bool :=
  valid_from (empty_set string) c.

(** [score > maxScore]. *)
Definition score_gt (s : Q) (maxScore : score) : bool :=
  match maxScore with
  | NegInf => true
  | Fin m => negb (Qle_bool s m)
  end.

(** What the loop does that can be observed: a call of
    [calculate_S_score] and a [print] of a new best. *)
Inductive event : Type :=
| Scored (c : combination)
| Printed (c : combination) (s : Q).

(** The arguments of the calls of [calculate_S_score] in a trace. *)
Definition scored_of (tr : list event) : list combination :=
  flat_map (fun e => match e with Scored c => [c] | Printed _ _ => [] end) tr.

Section Search.

Variables (n : Z) (data : catalog) (w : weights).

(** The [for combination in ...] loop, from the state
    [(bestCombination, maxScore)]; it returns the events in order and the
    final state, or the exception that ended it. *)
Fixpoint search_loop (cs : list combination) (bestCombination : option combination)
    (maxScore : score) : list event * result (option combination * score) :=
  match cs with
  | [] => ([], Ok (bestCombination, maxScore))
  | c :: rest =>
      if valid_combination c then
        match calculate_S_score n c data w with
        | Err e => ([Scored c], Err e)
        | Ok s =>
            if score_gt s maxScore then
              let (tr, r) := search_loop rest (Some c) (Fin s) in
              (Scored c :: Printed c s :: tr, r)
            else
              let (tr, r) := search_loop rest bestCombination maxScore in
              (Scored c :: tr, r)
        end
      else search_loop rest bestCombination maxScore
  end.

(** The wavelengths of a data frame, [df.iloc[:, 0].unique()]. *)
Definition wavelengths_of (df : dataframe) : list Q := unique (map nm df).

(** The flat list the combinations are drawn from, given the first
    data frame. *)
Definition universe (first : dataframe) : list pairing :=
  pairings (map fst data) (wavelengths_of first).

(** The whole call, with its trace. *)
Definition find_best_combination_run
  : list event * result (option combination * score) :=
  match data with
  | [] => ([], Err IndexError)                 (* nanoparticles[0] *)
  | (_, first) :: _ =>
      if (n <? 0)%Z then ([], Err NegativeR)   (* combinations(_, n) *)
      else search_loop (combinations (universe first) (Z.to_nat n)) None NegInf
  end.

Definition find_best_combination : result (option combination * score) :=
  snd find_best_combination_run.

(** The candidates handed to [calculate_S_score] during the call. *)
Definition scored_candidates : list combination :=
  scored_of (fst find_best_combination_run).

End Search.

(** ** The scoring formula, as the specification words it *)

(** [lookup(nanoparticleId, wavelength)]: the first record of the
    nanoparticle's table with that wavelength, if any. *)
Definition record_at (data : catalog) (P : string) (wl : Q) : option row :=
  match getitem data P with
  | Ok df => hd_error (loc_wavelength df wl)
  | Err _ => None
  end.

Definition scattering_at (data : catalog) (P : string) (wl : Q) : Q :=
  match record_at data P wl with Some r => Qsca r | None => 0 end.

Definition absorption_at (data : catalog) (P : string) (wl : Q) : Q :=
  match record_at data P wl with Some r => Qabs r | None => 0 end.

(** The weighted response of nanoparticle [P] at wavelength [wl]. *)
Definition response (data : catalog) (w : weights) (P : string) (wl : Q) : Q :=
  scattering w * scattering_at data P wl + absorption w * absorption_at data P wl.

Definition Qsum (l : list Q) : Q := fold_right Qplus 0 l.

Definition pair_at (c : combination) (i : nat) : pairing :=
  nth i c (EmptyString, 0).

Section ScoreSpec.

Variables (data : catalog) (w : weights) (c : combination).

Definition ownScore (i : nat) : Q :=
  response data w (fst (pair_at c i)) (snd (pair_at c i)).

(** Sum over every position [j] other than [i] of the response of [P_j]
    at the wavelength [w_i]. *)
Definition penalty (i : nat) : Q :=
  Qsum (map (fun j => response data w (fst (pair_at c j)) (snd (pair_at c i)))
            (filter (fun j => negb (Nat.eqb i j)) (seq 0 (length c)))).

Definition contribution (i : nat) : Q := ownScore i - penalty i.

Definition score_spec : Q := Qsum (map contribution (seq 0 (length c))).

(** Every lookup the score needs finds a record: each selected
    nanoparticle at each selected wavelength. *)
Definition lookups_succeed : Prop :=
  forall P wl, In P (map fst c) -> In wl (map snd c) ->
               record_at data P wl <> None.

End ScoreSpec.

(** ** The candidate space *)

(** [Subseq s l]: [s] is obtained from [l] by deleting elements. *)
Inductive Subseq {A : Type} : list A -> list A -> Prop :=
| Subseq_nil : forall l, Subseq [] l
| Subseq_take : forall x s l, Subseq s l -> Subseq (x :: s) (x :: l)
| Subseq_drop : forall x s l, Subseq s l -> Subseq s (x :: l).

(** The flat list of a catalog: every identifier with every wavelength of
    the first identifier's table. *)
Definition flat (data : catalog) : list pairing :=
  match data with
  | [] => []
  | (_, first) :: _ => universe data first
  end.

(** A valid candidate: [n] pairs drawn from the flat list (in its order)
    whose identifiers are pairwise distinct. *)
Definition valid_candidate (n : Z) (data : catalog) (c : combination) : Prop :=
  Z.of_nat (length c) = n /\ Subseq c (flat data) /\ NoDup (map fst c).

(** [s <= m] for a running maximum [m]. *)
Definition score_le (s : Q) (m : score) : Prop :=
  match m with
  | NegInf => False
  | Fin q => s <= q
  end.

(** The tuples the loop of [find_best_combination] runs through. *)
Definition candidates (n : Z) (data : catalog) : list combination :=
  combinations (flat data) (Z.to_nat n).

(** [c], with score [s], is the first candidate of [cs] among the valid
    ones of greatest score: valid ones before it score strictly less,
    valid ones after it score at most [s]. *)
Definition first_best (n : Z) (data : catalog) (w : weights)
    (cs : list combination) (c : combination) (s : Q) : Prop :=
  exists pre post,
    cs = pre ++ c :: post /\
    valid_combination c = true /\
    calculate_S_score n c data w = Ok s /\
    (forall c' s', In c' pre -> valid_combination c' = true ->
                   calculate_S_score n c' data w = Ok s' -> s' < s) /\
    (forall c' s', In c' post -> valid_combination c' = true ->
                   calculate_S_score n c' data w = Ok s' -> s' <= s).

(** Every lookup made while scoring any valid candidate succeeds. *)
Definition all_lookups_succeed (n : Z) (data : catalog) : Prop :=
  forall c, valid_candidate n data c -> lookups_succeed data c.

(** ** Relating two runs *)

(** Two results are alike: the same exception, or related values. *)
Definition result_rel {S1 S2 : Type} (R : S1 -> S2 -> Prop)
    (r1 : result S1) (r2 : result S2) : Prop :=
  match r1, r2 with
  | Ok a1, Ok a2 => R a1 a2
  | Err e1, Err e2 => e1 = e2
  | _, _ => False
  end.

(** Two rows with the same wavelength, scattering and absorption. *)
Definition same_optics (r1 r2 : row) : Prop :=
  nm r1 = nm r2 /\ Qsca r1 = Qsca r2 /\ Qabs r1 = Qabs r2.

(** Same identifiers in the same order, tables of the same rows up to
    their [Qext] entries. *)
Definition agree_up_to_Qext (d1 d2 : catalog) : Prop :=
  Forall2 (fun e1 e2 => fst e1 = fst e2 /\ Forall2 same_optics (snd e1) (snd e2))
          d1 d2.

(** ** The order of enumeration *)

(** Lexicographic order on tuples of positions. *)
Inductive lex_lt : list nat -> list nat -> Prop :=
| lex_lt_nil : forall y ys, lex_lt [] (y :: ys)
| lex_lt_head : forall x y xs ys, (x < y)%nat -> lex_lt (x :: xs) (y :: ys)
| lex_lt_tail : forall x xs ys, lex_lt xs ys -> lex_lt (x :: xs) (x :: ys).

(** The tuple of the elements of [l] at the positions [ps]. *)
Definition pick {A : Type} (d : A) (l : list A) (ps : list nat) : list A :=
  map (fun i => nth i l d) ps.

(** ** Sample data *)

(** Two nanoparticles, each strong at one of two wavelengths. *)
Definition example_catalog : catalog :=
  [("A"%string, [mkRow 400 6 5 0; mkRow 500 1 1 0]);
   ("B"%string, [mkRow 400 1 1 0; mkRow 500 5 5 0])].

(** The same tables with other extinction values. *)
Definition example_catalog_Qext : catalog :=
  [("A"%string, [mkRow 400 0 5 0; mkRow 500 9 1 0]);
   ("B"%string, [mkRow 400 7 1 0; mkRow 500 2 5 0])].

(** Nanoparticle B has no record at 500. *)
Definition gappy_catalog : catalog :=
  [("A"%string, [mkRow 400 6 5 0; mkRow 500 1 1 0]);
   ("B"%string, [mkRow 400 1 1 0])].

Definition scattering_only : weights := mkWeights 1 0.

(** ** Loading the data files *)

(** [load_data] walks the paths that [glob] returns and reads each file
    with [pd.read_csv]; here the paths come with the table read from each,
    in the order of the walk. *)
Definition datafile : Type := (string * dataframe)%type.

Fixpoint has_slash (s : string) : bool :=
  match s with
  | EmptyString => false
  | String ch rest => Ascii.eqb ch "/" || has_slash rest
  end.

(** [os.path.basename]: what follows the last ["/"]. *)
Fixpoint basename (s : string) : string :=
  match s with
  | EmptyString => EmptyString
  | String ch rest =>
      if has_slash rest then basename rest
      else if Ascii.eqb ch "/" then rest else String ch rest
  end.

(** [filename.split('.')[0]]: what precedes the first ["."]. *)
Fixpoint before_dot (s : string) : string :=
  match s with
  | EmptyString => EmptyString
  | String ch rest =>
      if Ascii.eqb ch "." then EmptyString else String ch (before_dot rest)
  end.

Definition material_of (filepath : string) : string :=
  before_dot (basename filepath).

(** [data[k] = df]: an existing key keeps its place and takes the new
    value, a new key goes last. *)
Fixpoint setitem (data : catalog) (k : string) (df : dataframe) : catalog :=
  match data with
  | [] => [(k, df)]
  | (k', df') :: rest =>
      if String.eqb k' k then (k', df) :: rest
      else (k', df') :: setitem rest k df
  end.

Definition load_data (files : list datafile) : catalog :=
  fold_left (fun data f => setitem data (material_of (fst f)) (snd f)) files [].

(** [load_data] continued from a dict already holding [data]. *)
Definition load_into (data : catalog) (files : list datafile) : catalog :=
  fold_left (fun data f => setitem data (material_of (fst f)) (snd f)) files data.

(** What [main] prints last: the result of the search for three pairings
    with both weights one half. *)
Definition main (files : list datafile) : result (option combination * score) :=
  find_best_combination 3 (load_data files) (mkWeights (1 # 2) (1 # 2)).

(** ** The trace *)

(** The new bests printed, in order. *)
Definition printed_of (tr : list event) : list (combination * Q) :=
  flat_map (fun e => match e with Scored _ => [] | Printed c s => [(c, s)] end) tr.

(** Data files for the examples. *)
Definition example_files : list datafile :=
  [("data/Au50.dat"%string, [mkRow 400 6 5 0]);
   ("data/Ag.80nm.dat"%string, [mkRow 400 1 1 0]);
   ("data/Au50.v2.dat"%string, [mkRow 400 2 2 2; mkRow 500 3 3 3])].

(** * The same program over the numbers it actually computes with

    The cells of the tables, the weights and the scores are machine numbers:
    binary64 for the usual data, 64-bit integers when a column holds only
    integers.  Their sums are rounded and depend on the order of the
    additions, a product can overflow to an infinity, [inf - inf] is a
    not-a-number, and [>] is false as soon as a not-a-number is involved.
    The module below embeds the lookups, the score and the search once more,
    over a number system given by its operations ([Arith]); [binary64] is
    the one of the usual data. *)

Module Numeric.

Declare Scope num_scope.
Delimit Scope num_scope with num.

(** The operations the script applies to numbers. *)
Class Arith : Type := {
  num : Type;
  zero : num;                      (* the [0] the accumulators start from *)
  neg_inf : num;                   (* [float('-inf')] *)
  add : num -> num -> num;         (* [+], [+=] *)
  sub : num -> num -> num;         (* [-] *)
  mul : num -> num -> num;         (* [*] *)
  gtb : num -> num -> bool;        (* [>] *)
  eqb : num -> num -> bool;        (* [==] *)
  unique : list num -> list num    (* [Series.unique()] *)
}.

(** What the comparisons of machine numbers satisfy: [>] is irreflexive
    and transitive, and numbers that are [==] compare alike. *)
Record ordered (A : Arith) : Prop := {
  gtb_irrefl : forall a : num, gtb a a = false;
  gtb_trans : forall a b c : num,
      gtb a b = true -> gtb b c = true -> gtb a c = true;
  eqb_gtb_l : forall a b c : num, eqb a b = true -> gtb a c = gtb b c;
  eqb_gtb_r : forall a b c : num, eqb a b = true -> gtb c a = gtb c b
}.

Section Model.

Context {A : Arith}.

(** One row of a data frame, columns ["nm"], ["Qext"], ["Qsca"], ["Qabs"]. *)
Record row : Type := mkRow {
  nm : num;
  Qext : num;
  Qsca : num;
  Qabs : num }.

Definition dataframe : Type := list row.

(** [nanoparticleData]: identifier -> data frame, in insertion order. *)
Definition catalog : Type := list (string * dataframe).

(** [weights = {'scattering': _, 'absorption': _}]. *)
Record weights : Type := mkWeights {
  scattering : num;
  absorption : num }.

Definition pairing : Type := (string * num)%type.
Definition combination : Type := list pairing.

(** The exceptions the script can raise. *)
Inductive error : Type :=
| KeyError (k : string)                        (* data[nanoparticle] *)
| IndexError                                   (* nanoparticles[0], combination[i] *)
| WavelengthNotFound (np : string) (wl : num)  (* the ValueError of the lookups *)
| NegativeR.                                   (* combinations(_, n) with n < 0 *)

Inductive result (T : Type) : Type :=
| Ok (a : T)
| Err (e : error).
Arguments Ok {T} a.
Arguments Err {T} e.

Definition bind {T U : Type} (m : result T) (k : T -> result U) : result U :=
  match m with
  | Ok a => k a
  | Err e => Err e
  end.

Notation "x <- m ;; k" := (bind m (fun x => k))
  (at level 61, m at next level, right associativity) : num_scope.
Notation "' pat <- m ;; k" := (bind m (fun x => match x with pat => k end))
  (at level 61, pat pattern, m at next level, right associativity) : num_scope.
Local Open Scope num_scope.

(** [data[nanoparticle]]. *)
Fixpoint getitem (data : catalog) (k : string) : result dataframe :=
  match data with
  | [] => Err (KeyError k)
  | (k', df) :: rest => if String.eqb k' k then Ok df else getitem rest k
  end.

(** [df.loc[pd.to_numeric(df.iloc[:, 0]) == wavelength]]. *)
Definition loc_wavelength (df : dataframe) (wavelength : num) : dataframe :=
  filter (fun r => eqb (nm r) wavelength) df.

Definition calculate_absorption (data : catalog) (nanoparticle : string)
    (wavelength : num) : result num :=
  df <- getitem data nanoparticle ;;
  match loc_wavelength df wavelength with
  | r :: _ => Ok (Qabs r)
  | [] => Err (WavelengthNotFound nanoparticle wavelength)
  end.

Definition calculate_scattering (data : catalog) (nanoparticle : string)
    (wavelength : num) : result num :=
  df <- getitem data nanoparticle ;;
  match loc_wavelength df wavelength with
  | r :: _ => Ok (Qsca r)
  | [] => Err (WavelengthNotFound nanoparticle wavelength)
  end.

(** [combination[i]] for [i >= 0]. *)
Definition index (c : combination) (i : nat) : result pairing :=
  match nth_error c i with
  | Some p => Ok p
  | None => Err IndexError
  end.

(** [for i in idx: acc = body(i, acc)], stopping at the first exception. *)
Fixpoint for_each {I S : Type} (idx : list I) (body : I -> S -> result S)
    (acc : S) : result S :=
  match idx with
  | [] => Ok acc
  | i :: rest => acc' <- body i acc ;; for_each rest body acc'
  end.

(** Body of the inner loop over [j], for the pair at position [i] whose
    wavelength is [wavelength]. *)
Definition penalty_body (n : Z) (c : combination) (data : catalog) (w : weights)
    (i : nat) (wavelength : num) (j : nat) (total_penalty : num) : result num :=
  if Nat.eqb i j then Ok total_penalty
  else
    '(other_nanoparticle, _) <- index c j ;;
    other_absorption <- calculate_absorption data other_nanoparticle wavelength ;;
    other_scattering <- calculate_scattering data other_nanoparticle wavelength ;;
    let penalty_cross_section :=
      add (mul (scattering w) other_scattering)
          (mul (absorption w) other_absorption) in
    Ok (add total_penalty penalty_cross_section).

(** Body of the outer loop over [i]. *)
Definition score_body (n : Z) (c : combination) (data : catalog) (w : weights)
    (i : nat) (total_score : num) : result num :=
  '(nanoparticle, wavelength) <- index c i ;;
  absorptionCrossSection <- calculate_absorption data nanoparticle wavelength ;;
  scatteringCrossSection <- calculate_scattering data nanoparticle wavelength ;;
  let totalCrossSectionScore :=
    add (mul (scattering w) scatteringCrossSection)
        (mul (absorption w) absorptionCrossSection) in
  total_penalty <- for_each (range n) (penalty_body n c data w i wavelength) zero ;;
  let nanoparticle_score := sub totalCrossSectionScore total_penalty in
  Ok (add total_score nanoparticle_score).

Definition calculate_S_score (n : Z) (c : combination) (data : catalog)
    (w : weights) : result num :=
  for_each (range n) (score_body n c data w) zero.

(** [[(np, wl) for np in nanoparticles for wl in wavelengths]]. *)
Definition pairings (nanoparticles : list string) (wavelengths : list num)
  : list pairing :=
  flat_map (fun np => map (fun wl => (np, wl)) wavelengths) nanoparticles.

(** The check of lines 82-90: walk the tuple, stop at the first identifier
    already in [used_nanoparticles]. *)
Fixpoint valid_from (used_nanoparticles : set string) (c : combination) : bool :=
  match c with
  | [] => true
  | (np, _) :: rest =>
      if set_mem string_dec np used_nanoparticles then false
      else valid_from (set_add string_dec np used_nanoparticles) rest
  end.

Definition valid_combination (c : combination) : bool :=
  valid_from (empty_set string) c.

(** A call of [calculate_S_score] and a [print] of a new best. *)
Inductive event : Type :=
| Scored (c : combination)
| Printed (c : combination) (s : num).

(** The [for combination in ...] loop, from the state
    [(bestCombination, maxScore)]; the update is guarded by
    [score > maxScore]. *)
Fixpoint search_loop (n : Z) (data : catalog) (w : weights)
    (cs : list combination) (bestCombination : option combination)
    (maxScore : num) : list event * result (option combination * num) :=
  match cs with
  | [] => ([], Ok (bestCombination, maxScore))
  | c :: rest =>
      if valid_combination c then
        match calculate_S_score n c data w with
        | Err e => ([Scored c], Err e)
        | Ok s =>
            if gtb s maxScore then
              let (tr, r) := search_loop n data w rest (Some c) s in
              (Scored c :: Printed c s :: tr, r)
            else
              let (tr, r) := search_loop n data w rest bestCombination maxScore in
              (Scored c :: tr, r)
        end
      else search_loop n data w rest bestCombination maxScore
  end.

(** The wavelengths of a data frame, [df.iloc[:, 0].unique()]. *)
Definition wavelengths_of (df : dataframe) : list num := unique (map nm df).

(** The flat list the combinations are drawn from. *)
Definition flat (data : catalog) : list pairing :=
  match data with
  | [] => []
  | (_, first) :: _ => pairings (map fst data) (wavelengths_of first)
  end.

(** The tuples the loop runs through. *)
Definition candidates (n : Z) (data : catalog) : list combination :=
  combinations (flat data) (Z.to_nat n).

(** The whole call, with its trace; [maxScore] starts as [float('-inf')]. *)
Definition find_best_combination_run (n : Z) (data : catalog) (w : weights)
  : list event * result (option combination * num) :=
  match data with
  | [] => ([], Err IndexError)                 (* nanoparticles[0] *)
  | _ :: _ =>
      if (n <? 0)%Z then ([], Err NegativeR)   (* combinations(_, n) *)
      else search_loop n data w (candidates n data) None neg_inf
  end.

Definition find_best_combination (n : Z) (data : catalog) (w : weights)
  : result (option combination * num) :=
  snd (find_best_combination_run n data w).

(** ** The scoring formula, as the specification words it *)

(** [lookup(nanoparticleId, wavelength)]: the first record of the
    nanoparticle's table with that wavelength, if any. *)
Definition record_at (data : catalog) (P : string) (wl : num) : option row :=
  match getitem data P with
  | Ok df => hd_error (loc_wavelength df wl)
  | Err _ => None
  end.

Definition scattering_at (data : catalog) (P : string) (wl : num) : num :=
  match record_at data P wl with Some r => Qsca r | None => zero end.

Definition absorption_at (data : catalog) (P : string) (wl : num) : num :=
  match record_at data P wl with Some r => Qabs r | None => zero end.

(** The weighted response of nanoparticle [P] at wavelength [wl]. *)
Definition response (data : catalog) (w : weights) (P : string) (wl : num) : num :=
  add (mul (scattering w) (scattering_at data P wl))
      (mul (absorption w) (absorption_at data P wl)).

(** A sum of machine numbers: from [0], one term after the other. *)
Definition sum (l : list num) : num := fold_left add l zero.

Definition pair_at (c : combination) (i : nat) : pairing :=
  nth i c (EmptyString, zero).

Definition ownScore (data : catalog) (w : weights) (c : combination) (i : nat)
  : num :=
  response data w (fst (pair_at c i)) (snd (pair_at c i)).

(** The sum, over the positions [j] other than [i] in increasing order, of
    the response of [P_j] at the wavelength [w_i]. *)
Definition penalty (data : catalog) (w : weights) (c : combination) (i : nat)
  : num :=
  sum (map (fun j => response data w (fst (pair_at c j)) (snd (pair_at c i)))
           (filter (fun j => negb (Nat.eqb i j)) (seq 0 (length c)))).

Definition contribution (data : catalog) (w : weights) (c : combination)
    (i : nat) : num :=
  sub (ownScore data w c i) (penalty data w c i).

(** The sum of the contributions, by increasing position. *)
Definition score_spec (data : catalog) (w : weights) (c : combination) : num :=
  sum (map (contribution data w c) (seq 0 (length c))).

(** Every lookup the score needs finds a record: each selected
    nanoparticle at each selected wavelength. *)
Definition lookups_succeed (data : catalog) (c : combination) : Prop :=
  forall P wl, In P (map fst c) -> In wl (map snd c) ->
               record_at data P wl <> None.

(** ** The candidate space *)

(** A valid candidate: [n] pairs drawn from the flat list (in its order)
    whose identifiers are pairwise distinct. *)
Definition valid_candidate (n : Z) (data : catalog) (c : combination) : Prop :=
  Z.of_nat (length c) = n /\ Subseq c (flat data) /\ NoDup (map fst c).

(** Every lookup made while scoring any valid candidate succeeds. *)
Definition all_lookups_succeed (n : Z) (data : catalog) : Prop :=
  forall c, valid_candidate n data c -> lookups_succeed data c.

(** [c], with score [s], is the first candidate of [cs] whose score none
    exceeds: a valid one before it scores neither more than [s] nor as much
    ([==]), a valid one after it does not score more. *)
Definition first_best (n : Z) (data : catalog) (w : weights)
    (cs : list combination) (c : combination) (s : num) : Prop :=
  exists pre post,
    cs = pre ++ c :: post /\
    valid_combination c = true /\
    calculate_S_score n c data w = Ok s /\
    (forall c' s', In c' pre -> valid_combination c' = true ->
                   calculate_S_score n c' data w = Ok s' ->
                   gtb s' s = false /\ eqb s' s = false) /\
    (forall c' s', In c' post -> valid_combination c' = true ->
                   calculate_S_score n c' data w = Ok s' -> gtb s' s = false).

(** A returned optimum: a valid candidate, its score, and no valid
    candidate with a greater score. *)
Definition returns_best (n : Z) (data : catalog) (w : weights) : Prop :=
  exists best s,
    find_best_combination n data w = Ok (Some best, s) /\
    valid_candidate n data best /\
    calculate_S_score n best data w = Ok s /\
    forall c s', valid_candidate n data c ->
                 calculate_S_score n c data w = Ok s' -> gtb s' s = false.

(** Both weights multiplied by [k]. *)
Definition scale (k : num) (w : weights) : weights :=
  mkWeights (mul k (scattering w)) (mul k (absorption w)).

End Model.

Arguments Ok {A T} a.
Arguments Err {A T} e.

(** ** Binary64 *)

(** [Series.unique()] on a float column keeps the first of the values that
    are [==], and one not-a-number. *)
Definition same_float (a b : float) : bool :=
  PrimFloat.eqb a b || (PrimFloat.is_nan a && PrimFloat.is_nan b).

Fixpoint unique64 (l : list float) : list float :=
  match l with
  | [] => []
  | x :: xs => x :: filter (fun y => negb (same_float y x)) (unique64 xs)
  end.

(** IEEE 754 double precision, the numbers of numpy's [float64] and of
    Python's [float]. *)
Definition binary64 : Arith := {|
  num := float;
  zero := PrimFloat.zero;
  neg_inf := PrimFloat.neg_infinity;
  add := PrimFloat.add;
  sub := PrimFloat.sub;
  mul := PrimFloat.mul;
  gtb := fun a b => PrimFloat.ltb b a;
  eqb := PrimFloat.eqb;
  unique := unique64 |}.

(** ** Sample data in binary64 *)

Section Samples.

Local Open Scope float_scope.

Definition row64 (wavelength qext qsca qabs : float) : @row binary64 :=
  @mkRow binary64 wavelength qext qsca qabs.

Definition weights64 (ws wa : float) : @weights binary64 :=
  @mkWeights binary64 ws wa.

(** Two nanoparticles, each strong at one of two wavelengths. *)
Definition example64 : @catalog binary64 :=
  [("A"%string, [row64 400 6 5 0; row64 500 1 1 0]);
   ("B"%string, [row64 400 1 1 0; row64 500 5 5 0])].

(** A single nanoparticle with a single record. *)
Definition lone64 : @catalog binary64 := [("A"%string, [row64 400 1 1 1])].

(** Decimal efficiencies, none of them a binary64 number. *)
Definition decimal64 : @catalog binary64 :=
  [("A"%string, [row64 400 0.3 0.3 0; row64 500 0.3 0.1 0.2])].

(** Two nanoparticles with decimal efficiencies. *)
Definition decimals64 : @catalog binary64 :=
  [("A"%string, [row64 400 0.4 0.3 0.1; row64 500 0.3 0.1 0.2]);
   ("B"%string, [row64 400 0.3 0.2 0.1; row64 500 1 0.7 0.3])].

(** Efficiencies so large that ten times them overflows. *)
Definition huge64 : @catalog binary64 :=
  [("A"%string, [row64 400 1e308 1e308 0]);
   ("B"%string, [row64 400 1e308 1e308 0])].

(** Efficiencies so low that ten times them overflows to [-inf]. *)
Definition low64 : @catalog binary64 :=
  [("A"%string, [row64 400 0 (-1e308) 0; row64 500 0 (-1e308) 0])].

End Samples.

End Numeric.


(** * Properties *)

(** ** Basic facts *)

Lemma bind_ok_inv {A B : Type} (m : result A) (k : A -> result B) (b : B) :
  bind m k = Ok b -> exists a, m = Ok a /\ k a = Ok b.
Proof.
  destruct m as [a|e]; simpl; intros H; [eauto | discriminate].
Qed.

Lemma bind_err_inv {A B : Type} (m : result A) (k : A -> result B) (e : error) :
  bind m k = Err e -> m = Err e \/ exists a, m = Ok a /\ k a = Err e.
Proof.
  destruct m as [a|e']; simpl; intros H; [right; eauto | left; congruence].
Qed.

Lemma getitem_in (data : catalog) (k : string) :
  In k (map fst data) -> exists df, getitem data k = Ok df.
Proof.
  induction data as [|[k' df] rest IH]; simpl; [tauto|].
  intros [->|Hin].
  - rewrite String.eqb_refl. eauto.
  - destruct (String.eqb k' k); eauto.
Qed.

Lemma getitem_err (data : catalog) (k : string) (e : error) :
  getitem data k = Err e -> e = KeyError k /\ ~ In k (map fst data).
Proof.
  induction data as [|[k' df] rest IH]; simpl.
  - intros [= <-]. tauto.
  - destruct (String.eqb k' k) eqn:E; [discriminate|].
    intros H. destruct (IH H) as [-> Hn]. split; [reflexivity|].
    intros [->|Hin]; [|tauto]. rewrite String.eqb_refl in E. discriminate.
Qed.

(** The two lookups in terms of [record_at]. *)
Lemma calculate_absorption_some (data : catalog) (P : string) (wl : Q) (r : row) :
  record_at data P wl = Some r -> calculate_absorption data P wl = Ok (Qabs r).
Proof.
  unfold record_at, calculate_absorption.
  destruct (getitem data P) as [df|e]; simpl; [|discriminate].
  destruct (loc_wavelength df wl); simpl; [discriminate|].
  now intros [= ->].
Qed.

Lemma calculate_scattering_some (data : catalog) (P : string) (wl : Q) (r : row) :
  record_at data P wl = Some r -> calculate_scattering data P wl = Ok (Qsca r).
Proof.
  unfold record_at, calculate_scattering.
  destruct (getitem data P) as [df|e]; simpl; [|discriminate].
  destruct (loc_wavelength df wl); simpl; [discriminate|].
  now intros [= ->].
Qed.

Lemma calculate_absorption_ok_inv (data : catalog) (P : string) (wl v : Q) :
  calculate_absorption data P wl = Ok v ->
  exists r, record_at data P wl = Some r /\ v = Qabs r.
Proof.
  unfold record_at, calculate_absorption.
  destruct (getitem data P) as [df|e]; simpl; [|discriminate].
  destruct (loc_wavelength df wl) as [|r t]; simpl; [discriminate|].
  intros [= <-]. eauto.
Qed.

Lemma calculate_scattering_ok_inv (data : catalog) (P : string) (wl v : Q) :
  calculate_scattering data P wl = Ok v ->
  exists r, record_at data P wl = Some r /\ v = Qsca r.
Proof.
  unfold record_at, calculate_scattering.
  destruct (getitem data P) as [df|e]; simpl; [|discriminate].
  destruct (loc_wavelength df wl) as [|r t]; simpl; [discriminate|].
  intros [= <-]. eauto.
Qed.

Lemma calculate_absorption_err (data : catalog) (P : string) (wl : Q) (e : error) :
  calculate_absorption data P wl = Err e ->
  record_at data P wl = None /\
  (In P (map fst data) -> e = WavelengthNotFound P wl).
Proof.
  unfold record_at, calculate_absorption.
  destruct (getitem data P) as [df|e'] eqn:G; simpl.
  - destruct (loc_wavelength df wl) as [|r t]; simpl; [|discriminate].
    intros [= <-]. auto.
  - intros [= ->]. split; [reflexivity|].
    intros Hin. apply getitem_err in G. tauto.
Qed.

Lemma calculate_scattering_err (data : catalog) (P : string) (wl : Q) (e : error) :
  calculate_scattering data P wl = Err e ->
  record_at data P wl = None /\
  (In P (map fst data) -> e = WavelengthNotFound P wl).
Proof.
  unfold record_at, calculate_scattering.
  destruct (getitem data P) as [df|e'] eqn:G; simpl.
  - destruct (loc_wavelength df wl) as [|r t]; simpl; [|discriminate].
    intros [= <-]. auto.
  - intros [= ->]. split; [reflexivity|].
    intros Hin. apply getitem_err in G. tauto.
Qed.

(** ** Loops *)

Lemma for_each_ok_inv {I S : Type} (idx : list I) (body : I -> S -> result S) :
  forall acc v, for_each idx body acc = Ok v ->
  forall i, In i idx -> exists a a', body i a = Ok a'.
Proof.
  induction idx as [|i0 rest IH]; simpl; intros acc v H i Hin; [tauto|].
  apply bind_ok_inv in H. destruct H as (a' & Hb & Hrest).
  destruct Hin as [<-|Hin]; eauto.
Qed.

Lemma for_each_err_inv {I S : Type} (idx : list I) (body : I -> S -> result S) :
  forall acc e, for_each idx body acc = Err e ->
  exists i a, In i idx /\ body i a = Err e.
Proof.
  induction idx as [|i0 rest IH]; simpl; intros acc e H; [discriminate|].
  apply bind_err_inv in H. destruct H as [H|(a' & Hb & Hrest)].
  - exists i0, acc. auto.
  - destruct (IH _ _ Hrest) as (i & a & Hin & Hbody). exists i, a. auto.
Qed.

(** A loop whose body adds [f i] to the accumulator computes the sum. *)
Lemma for_each_sum {I : Type} (idx : list I) (body : I -> Q -> result Q)
    (f : I -> Q) :
  (forall i a, In i idx -> exists v, body i a = Ok v /\ v == a + f i) ->
  forall acc, exists v, for_each idx body acc = Ok v /\ v == acc + Qsum (map f idx).
Proof.
  induction idx as [|i0 rest IH]; simpl; intros Hbody acc.
  - exists acc. split; [reflexivity|]. unfold Qsum; simpl. lra.
  - destruct (Hbody i0 acc (or_introl eq_refl)) as (v0 & E0 & Hv0).
    rewrite E0; simpl.
    destruct (IH (fun i a Hin => Hbody i a (or_intror Hin)) v0) as (v & E & Hv).
    exists v. split; [exact E|].
    unfold Qsum in *; simpl. rewrite Hv, Hv0. lra.
Qed.

Lemma bind_rel {A1 A2 B1 B2 : Type} (RA : A1 -> A2 -> Prop) (RB : B1 -> B2 -> Prop)
    (m1 : result A1) (m2 : result A2) (k1 : A1 -> result B1) (k2 : A2 -> result B2) :
  result_rel RA m1 m2 ->
  (forall a1 a2, RA a1 a2 -> result_rel RB (k1 a1) (k2 a2)) ->
  result_rel RB (bind m1 k1) (bind m2 k2).
Proof.
  destruct m1, m2; simpl; intros H Hk; auto; contradiction.
Qed.

Lemma for_each_rel {I S1 S2 : Type} (R : S1 -> S2 -> Prop) (idx : list I)
    (body1 : I -> S1 -> result S1) (body2 : I -> S2 -> result S2) :
  (forall i a1 a2, In i idx -> R a1 a2 -> result_rel R (body1 i a1) (body2 i a2)) ->
  forall a1 a2, R a1 a2 ->
  result_rel R (for_each idx body1 a1) (for_each idx body2 a2).
Proof.
  induction idx as [|i0 rest IH]; simpl; intros Hbody a1 a2 HR; [exact HR|].
  apply bind_rel with (RA := R); [apply Hbody; auto|].
  intros b1 b2 Hb. apply IH; auto.
Qed.

(** ** The score computed by [calculate_S_score] *)

Lemma index_lt (c : combination) (i : nat) :
  (i < length c)%nat -> index c i = Ok (pair_at c i).
Proof.
  intros Hi. unfold index, pair_at.
  rewrite (nth_error_nth' c (EmptyString, 0) Hi). reflexivity.
Qed.

Lemma index_ge (c : combination) (i : nat) :
  (length c <= i)%nat -> index c i = Err IndexError.
Proof.
  intros Hi. unfold index.
  apply nth_error_None in Hi. rewrite Hi. reflexivity.
Qed.

Lemma pair_at_in (c : combination) (i : nat) :
  (i < length c)%nat -> In (pair_at c i) c.
Proof. intros Hi. apply nth_In. exact Hi. Qed.

Lemma in_pair_at (c : combination) (p : pairing) :
  In p c -> exists i, (i < length c)%nat /\ pair_at c i = p.
Proof. intros Hin. apply In_nth. exact Hin. Qed.

Lemma range_length (c : combination) :
  range (Z.of_nat (length c)) = seq 0 (length c).
Proof. unfold range. rewrite Nat2Z.id. reflexivity. Qed.

Lemma Qsum_filter {I : Type} (p : I -> bool) (g : I -> Q) (l : list I) :
  Qsum (map (fun j => if p j then g j else 0) l) == Qsum (map g (filter p l)).
Proof.
  induction l as [|x l IH]; simpl; [reflexivity|].
  unfold Qsum in *; simpl.
  destruct (p x); simpl; rewrite IH; lra.
Qed.

Lemma response_records (data : catalog) (w : weights) (P : string) (wl : Q)
    (ra rs : row) :
  record_at data P wl = Some ra -> record_at data P wl = Some rs ->
  scattering w * Qsca rs + absorption w * Qabs ra = response data w P wl.
Proof.
  intros Ha Hs. unfold response, scattering_at, absorption_at.
  rewrite Ha in Hs. injection Hs as <-. rewrite Ha. reflexivity.
Qed.

Section ScoreFacts.

Variables (data : catalog) (w : weights) (c : combination).
Hypothesis Hlook : lookups_succeed data c.

Let found (i j : nat) :
  (i < length c)%nat -> (j < length c)%nat ->
  exists r, record_at data (fst (pair_at c j)) (snd (pair_at c i)) = Some r.
Proof.
  intros Hi Hj.
  destruct (record_at data (fst (pair_at c j)) (snd (pair_at c i))) eqn:E; eauto.
  exfalso. apply (Hlook (fst (pair_at c j)) (snd (pair_at c i))); auto.
  - apply in_map, pair_at_in, Hj.
  - apply in_map, pair_at_in, Hi.
Qed.

Lemma penalty_body_ok (i j : nat) (a : Q) :
  (i < length c)%nat -> In j (seq 0 (length c)) ->
  exists v, penalty_body c data w i (snd (pair_at c i)) j a = Ok v /\
            v == a + (if negb (Nat.eqb i j)
                      then response data w (fst (pair_at c j)) (snd (pair_at c i))
                      else 0).
Proof.
  intros Hi Hj. apply in_seq in Hj. unfold penalty_body.
  destruct (Nat.eqb i j); simpl.
  - exists a. split; [reflexivity | lra].
  - rewrite index_lt by lia. simpl.
    destruct (pair_at c j) as [Pj wj] eqn:Ej.
    destruct (found i j) as (r & Hr); [lia | lia |].
    rewrite Ej in Hr. simpl in Hr.
    rewrite (calculate_absorption_some _ _ _ _ Hr). simpl.
    rewrite (calculate_scattering_some _ _ _ _ Hr). simpl.
    eexists. split; [reflexivity|].
    rewrite (response_records _ w _ _ _ _ Hr Hr). reflexivity.
Qed.

Lemma penalty_loop_ok (i : nat) :
  (i < length c)%nat ->
  exists v, for_each (seq 0 (length c))
                     (penalty_body c data w i (snd (pair_at c i))) 0 = Ok v /\
            v == penalty data w c i.
Proof.
  intros Hi.
  destruct (for_each_sum (seq 0 (length c))
              (penalty_body c data w i (snd (pair_at c i)))
              (fun j => if negb (Nat.eqb i j)
                        then response data w (fst (pair_at c j)) (snd (pair_at c i))
                        else 0)
              (fun j a Hj => penalty_body_ok i j a Hi Hj) 0)
    as (v & E & Hv).
  exists v. split; [exact E|].
  rewrite Hv, Qsum_filter. unfold penalty. lra.
Qed.

Lemma score_body_ok (i : nat) (a : Q) :
  In i (seq 0 (length c)) ->
  exists v, score_body (Z.of_nat (length c)) c data w i a = Ok v /\
            v == a + contribution data w c i.
Proof.
  intros Hi. apply in_seq in Hi. unfold score_body.
  rewrite index_lt by lia. simpl.
  destruct (found i i) as (r & Hr); [lia | lia |].
  unfold contribution, ownScore.
  destruct (pair_at c i) as [Pi wi] eqn:Ei. simpl in Hr |- *.
  rewrite (calculate_absorption_some _ _ _ _ Hr). simpl.
  rewrite (calculate_scattering_some _ _ _ _ Hr). simpl.
  rewrite range_length.
  destruct (penalty_loop_ok i) as (p & Ep & Hp); [lia|].
  rewrite Ei in Ep. simpl in Ep. rewrite Ep. simpl.
  eexists. split; [reflexivity|].
  rewrite (response_records _ w _ _ _ _ Hr Hr), Hp. reflexivity.
Qed.

Lemma calculate_S_score_ok :
  exists s, calculate_S_score (Z.of_nat (length c)) c data w = Ok s /\
            s == score_spec data w c.
Proof.
  unfold calculate_S_score. rewrite range_length.
  destruct (for_each_sum (seq 0 (length c))
              (score_body (Z.of_nat (length c)) c data w)
              (contribution data w c)
              (fun i a Hi => score_body_ok i a Hi) 0)
    as (v & E & Hv).
  exists v. split; [exact E|]. rewrite Hv. unfold score_spec. lra.
Qed.

End ScoreFacts.

(** Conversely, a score that is returned has found every record it asked
    for, and a score that raises has missed one. *)
Lemma calculate_S_score_ok_inv (data : catalog) (w : weights) (c : combination)
    (s : Q) :
  calculate_S_score (Z.of_nat (length c)) c data w = Ok s ->
  lookups_succeed data c.
Proof.
  unfold calculate_S_score. rewrite range_length.
  intros H P wl HP Hwl.
  apply in_map_iff in HP. destruct HP as (pj & <- & Hpj).
  apply in_map_iff in Hwl. destruct Hwl as (pi & <- & Hpi).
  apply in_pair_at in Hpj. destruct Hpj as (j & Hj & <-).
  apply in_pair_at in Hpi. destruct Hpi as (i & Hi & <-).
  destruct (for_each_ok_inv _ _ _ _ H i) as (a & a' & Hb);
    [apply in_seq; lia|].
  unfold score_body in Hb. rewrite index_lt in Hb by lia. simpl in Hb.
  destruct (pair_at c i) as [Pi wi] eqn:Ei. simpl.
  apply bind_ok_inv in Hb. destruct Hb as (va & Ha & Hb).
  apply bind_ok_inv in Hb. destruct Hb as (vs & Hs & Hb).
  apply bind_ok_inv in Hb. destruct Hb as (p & Hp & _).
  rewrite range_length in Hp.
  destruct (Nat.eq_dec i j) as [<-|Hij].
  - rewrite Ei. simpl.
    apply calculate_absorption_ok_inv in Ha. destruct Ha as (r & -> & _).
    discriminate.
  - destruct (for_each_ok_inv _ _ _ _ Hp j) as (b & b' & Hpb);
      [apply in_seq; lia|].
    unfold penalty_body in Hpb.
    apply Nat.eqb_neq in Hij. rewrite Hij in Hpb.
    rewrite index_lt in Hpb by lia. simpl in Hpb.
    destruct (pair_at c j) as [Pj wj]. simpl.
    apply bind_ok_inv in Hpb. destruct Hpb as (oa & Hoa & _).
    apply calculate_absorption_ok_inv in Hoa. destruct Hoa as (r & -> & _).
    discriminate.
Qed.

Lemma calculate_S_score_err (data : catalog) (w : weights) (c : combination)
    (e : error) :
  (forall P, In P (map fst c) -> In P (map fst data)) ->
  calculate_S_score (Z.of_nat (length c)) c data w = Err e ->
  exists P wl, e = WavelengthNotFound P wl /\
               In P (map fst c) /\ In wl (map snd c) /\
               record_at data P wl = None.
Proof.
  intros Hkeys. unfold calculate_S_score. rewrite range_length. intros H.
  apply for_each_err_inv in H. destruct H as (i & a & Hi & Hb).
  apply in_seq in Hi. unfold score_body in Hb.
  rewrite index_lt in Hb by lia. simpl in Hb.
  assert (Hini : In (pair_at c i) c) by (apply pair_at_in; lia).
  destruct (pair_at c i) as [Pi wi] eqn:Ei.
  assert (HPi : In Pi (map fst c)) by (apply (in_map fst) in Hini; exact Hini).
  assert (Hwi : In wi (map snd c)) by (apply (in_map snd) in Hini; exact Hini).
  apply bind_err_inv in Hb. destruct Hb as [Hb|(va & _ & Hb)].
  { apply calculate_absorption_err in Hb. destruct Hb as (Hn & He).
    exists Pi, wi. auto. }
  apply bind_err_inv in Hb. destruct Hb as [Hb|(vs & _ & Hb)].
  { apply calculate_scattering_err in Hb. destruct Hb as (Hn & He).
    exists Pi, wi. auto. }
  apply bind_err_inv in Hb. destruct Hb as [Hb|(p & _ & Hb)]; [|discriminate].
  rewrite range_length in Hb.
  apply for_each_err_inv in Hb. destruct Hb as (j & b & Hj & Hb).
  apply in_seq in Hj. unfold penalty_body in Hb.
  destruct (Nat.eqb i j); [discriminate|].
  rewrite index_lt in Hb by lia. simpl in Hb.
  assert (Hinj : In (pair_at c j) c) by (apply pair_at_in; lia).
  destruct (pair_at c j) as [Pj wj] eqn:Ej.
  assert (HPj : In Pj (map fst c)) by (apply (in_map fst) in Hinj; exact Hinj).
  apply bind_err_inv in Hb. destruct Hb as [Hb|(oa & _ & Hb)].
  { apply calculate_absorption_err in Hb. destruct Hb as (Hn & He).
    exists Pj, wi. auto. }
  apply bind_err_inv in Hb. destruct Hb as [Hb|(os & _ & Hb)]; [|discriminate].
  apply calculate_scattering_err in Hb. destruct Hb as (Hn & He).
  exists Pj, wi. auto.
Qed.

(** A score either is returned or raises, according to the lookups. *)
Lemma calculate_S_score_missing (data : catalog) (w : weights) (c : combination)
    (P : string) (wl : Q) :
  In P (map fst c) -> In wl (map snd c) -> record_at data P wl = None ->
  exists e, calculate_S_score (Z.of_nat (length c)) c data w = Err e.
Proof.
  intros HP Hwl Hn.
  destruct (calculate_S_score (Z.of_nat (length c)) c data w) as [s|e] eqn:E;
    [|eauto].
  exfalso. apply calculate_S_score_ok_inv in E. exact (E P wl HP Hwl Hn).
Qed.

(** ** Combinations *)

Lemma combinations_length {A : Type} (l : list A) :
  forall r c, In c (combinations l r) -> length c = r.
Proof.
  induction l as [|x xs IH]; intros [|r] c; simpl.
  - intros [<-|[]]. reflexivity.
  - intros [].
  - intros [<-|[]]. reflexivity.
  - intros H. apply in_app_or in H. destruct H as [H|H].
    + apply in_map_iff in H. destruct H as (c' & <- & Hc').
      simpl. f_equal. apply IH. exact Hc'.
    + apply (IH (S r)). exact H.
Qed.

Lemma combinations_Subseq {A : Type} (l : list A) :
  forall r c, In c (combinations l r) -> Subseq c l.
Proof.
  induction l as [|x xs IH]; intros [|r] c; simpl.
  - intros [<-|[]]. constructor.
  - intros [].
  - intros [<-|[]]. constructor.
  - intros H. apply in_app_or in H. destruct H as [H|H].
    + apply in_map_iff in H. destruct H as (c' & <- & Hc').
      constructor. apply (IH r). exact Hc'.
    + constructor. apply (IH (S r)). exact H.
Qed.

Lemma combinations_complete {A : Type} (c l : list A) :
  Subseq c l -> In c (combinations l (length c)).
Proof.
  induction 1 as [l|x s l H IH|x s l H IH].
  - destruct l; simpl; auto.
  - simpl. apply in_or_app. left. apply in_map. exact IH.
  - destruct s as [|y s].
    + simpl. auto.
    + simpl. apply in_or_app. right. exact IH.
Qed.

Lemma combinations_iff {A : Type} (l : list A) (r : nat) (c : list A) :
  In c (combinations l r) <-> Subseq c l /\ length c = r.
Proof.
  split.
  - intros H. split; [eapply combinations_Subseq | eapply combinations_length]; eauto.
  - intros [H <-]. apply combinations_complete. exact H.
Qed.

Lemma Subseq_incl {A : Type} (s l : list A) :
  Subseq s l -> forall x, In x s -> In x l.
Proof.
  induction 1 as [l|y s l H IH|y s l H IH]; simpl; intros x Hx.
  - destruct Hx.
  - destruct Hx as [->|Hx]; auto.
  - auto.
Qed.

Lemma in_pairings (names : list string) (wls : list Q) (P : string) (wl : Q) :
  In (P, wl) (pairings names wls) <-> In P names /\ In wl wls.
Proof.
  unfold pairings. rewrite in_flat_map. split.
  - intros (np & Hnp & H). apply in_map_iff in H.
    destruct H as (wl' & [= <- <-] & Hwl). auto.
  - intros [HP Hwl]. exists P. split; [exact HP|].
    apply in_map_iff. eauto.
Qed.

(** ** The validity check *)

Lemma valid_from_iff (c : combination) :
  forall used,
    valid_from used c = true <->
    NoDup (map fst c) /\ forall P, In P (map fst c) -> ~ set_In P used.
Proof.
  induction c as [|[np wl] rest IH]; intros used; simpl.
  - split; [intros _; split; [constructor | tauto] | reflexivity].
  - destruct (set_mem string_dec np used) eqn:E.
    + apply set_mem_correct1 in E. split; [discriminate|].
      intros [_ H]. exfalso. apply (H np); auto.
    + apply set_mem_complete1 in E. rewrite IH. split.
      * intros [Hnd Hfresh]. split.
        -- constructor; [|exact Hnd].
           intros Hin. apply (Hfresh np Hin). apply set_add_intro2. reflexivity.
        -- intros P [<-|HP]; [exact E|].
           intros Hu. apply (Hfresh P HP). apply set_add_intro1. exact Hu.
      * intros [Hnd Hfresh]. inversion Hnd as [|x l Hnotin Hnd']; subst.
        split; [exact Hnd'|].
        intros P HP Hu. apply set_add_elim in Hu. destruct Hu as [->|Hu].
        -- contradiction.
        -- apply (Hfresh P); auto.
Qed.

Lemma valid_combination_iff (c : combination) :
  valid_combination c = true <-> NoDup (map fst c).
Proof.
  unfold valid_combination. rewrite valid_from_iff. split.
  - tauto.
  - intros H. split; [exact H|]. intros P _ [].
Qed.

(** More pairwise-distinct identifiers than the catalog has cannot be
    drawn from it. *)
Lemma distinct_ids_bound (c : combination) (names : list string) :
  NoDup (map fst c) ->
  (forall P, In P (map fst c) -> In P names) ->
  (length c <= length (nodup string_dec names))%nat.
Proof.
  intros Hnd Hincl.
  assert (E : length (map fst c) = length c) by apply length_map.
  rewrite <- E.
  apply NoDup_incl_length; [exact Hnd|].
  intros P HP. apply nodup_In. auto.
Qed.

(** ** The running maximum *)

Lemma score_gt_false (s : Q) (m : score) :
  score_gt s m = false -> score_le s m.
Proof.
  destruct m as [|q]; simpl; [discriminate|].
  intros H. apply negb_false_iff in H. apply Qle_bool_iff. exact H.
Qed.

Lemma score_gt_true (s : Q) (m : score) :
  score_gt s m = true -> forall s', score_le s' m -> s' < s.
Proof.
  destruct m as [|q]; simpl; [intros _ s' []|].
  intros H s' Hs'. apply negb_true_iff in H.
  destruct (Qlt_le_dec q s) as [Hlt|Hle].
  - lra.
  - apply Qle_bool_iff in Hle. congruence.
Qed.

Lemma score_gt_mono (s s2 : Q) (m : score) :
  score_gt s m = true -> s <= s2 -> score_gt s2 m = true.
Proof.
  destruct m as [|q]; simpl; [reflexivity|].
  intros H Hle. apply negb_true_iff in H. apply negb_true_iff.
  destruct (Qle_bool s2 q) eqn:E; [|reflexivity].
  apply Qle_bool_iff in E.
  assert (Hsq : s <= q) by lra. apply Qle_bool_iff in Hsq. congruence.
Qed.

Lemma score_gt_Fin (s q : Q) : score_gt s (Fin q) = true <-> q < s.
Proof.
  simpl. rewrite negb_true_iff. split.
  - intros H. destruct (Qlt_le_dec q s) as [Hlt|Hle]; [exact Hlt|].
    apply Qle_bool_iff in Hle. congruence.
  - intros H. destruct (Qle_bool s q) eqn:E; [|reflexivity].
    apply Qle_bool_iff in E. lra.
Qed.

Section SearchFacts.

Variables (n : Z) (data : catalog) (w : weights).

(** The loop invariant, read off a normal return. *)
Lemma search_loop_inv (cs : list combination) :
  forall best mx tr b m,
    search_loop n data w cs best mx = (tr, Ok (b, m)) ->
    (forall c, In c cs -> valid_combination c = true ->
               exists s, calculate_S_score n c data w = Ok s) /\
    ((b = best /\ m = mx /\
      forall c s, In c cs -> valid_combination c = true ->
                  calculate_S_score n c data w = Ok s -> score_le s mx)
     \/
     (exists c s, b = Some c /\ m = Fin s /\ score_gt s mx = true /\
                  first_best n data w cs c s)).
Proof.
  induction cs as [|c rest IH]; simpl; intros best mx tr b m H.
  - injection H as <- <- <-. split; [intros c []|].
    left. repeat split. intros c s [].
  - destruct (valid_combination c) eqn:V.
    + destruct (calculate_S_score n c data w) as [s|e] eqn:Sc; [|discriminate].
      destruct (score_gt s mx) eqn:G.
      * destruct (search_loop n data w rest (Some c) (Fin s)) as [tr' r'] eqn:L.
        injection H as <- ->.
        destruct (IH _ _ _ _ _ L) as [Htot Hcase]. split.
        { intros c' [<-|Hin] Hv; eauto. }
        right. destruct Hcase as [(-> & -> & Hle)|(c2 & s2 & -> & -> & G2 & FB)].
        -- exists c, s. repeat split; auto.
           exists [], rest. repeat split; auto.
           intros c' s' [].
        -- apply score_gt_Fin in G2.
           exists c2, s2. repeat split; auto.
           ++ apply score_gt_mono with (s := s); [exact G | lra].
           ++ destruct FB as (pre & post & -> & V2 & Sc2 & Hpre & Hpost).
              exists (c :: pre), post. repeat split; auto.
              intros c' s' [<-|Hin] Hv Hs; [|eauto].
              rewrite Sc in Hs. injection Hs as <-. exact G2.
      * destruct (search_loop n data w rest best mx) as [tr' r'] eqn:L.
        injection H as <- ->.
        destruct (IH _ _ _ _ _ L) as [Htot Hcase]. split.
        { intros c' [<-|Hin] Hv; eauto. }
        apply score_gt_false in G.
        destruct Hcase as [(-> & -> & Hle)|(c2 & s2 & -> & -> & G2 & FB)].
        -- left. repeat split; auto.
           intros c' s' [<-|Hin] Hv Hs; [|eauto].
           rewrite Sc in Hs. injection Hs as <-. exact G.
        -- right. exists c2, s2. repeat split; auto.
           destruct FB as (pre & post & -> & V2 & Sc2 & Hpre & Hpost).
           exists (c :: pre), post. repeat split; auto.
           intros c' s' [<-|Hin] Hv Hs; [|eauto].
           rewrite Sc in Hs. injection Hs as <-.
           exact (score_gt_true _ _ G2 _ G).
    + destruct (IH _ _ _ _ _ H) as [Htot Hcase]. split.
      { intros c' [<-|Hin] Hv; [congruence | eauto]. }
      destruct Hcase as [(-> & -> & Hle)|(c2 & s2 & -> & -> & G2 & FB)].
      * left. repeat split; auto.
        intros c' s' [<-|Hin] Hv Hs; [congruence | eauto].
      * right. exists c2, s2. repeat split; auto.
        destruct FB as (pre & post & -> & V2 & Sc2 & Hpre & Hpost).
        exists (c :: pre), post. repeat split; auto.
        intros c' s' [<-|Hin] Hv Hs; [congruence | eauto].
Qed.

(** The loop returns normally when every valid candidate can be scored. *)
Lemma search_loop_total (cs : list combination) :
  (forall c, In c cs -> valid_combination c = true ->
             exists s, calculate_S_score n c data w = Ok s) ->
  forall best mx, exists tr b m,
    search_loop n data w cs best mx = (tr, Ok (b, m)).
Proof.
  induction cs as [|c rest IH]; simpl; intros Hok best mx.
  - eauto.
  - assert (Hrest : forall c', In c' rest -> valid_combination c' = true ->
                               exists s, calculate_S_score n c' data w = Ok s)
      by (intros; apply Hok; auto).
    destruct (valid_combination c) eqn:V; [|apply IH; exact Hrest].
    destruct (Hok c (or_introl eq_refl) V) as (s & ->).
    destruct (score_gt s mx).
    + destruct (IH Hrest (Some c) (Fin s)) as (tr & b & m & ->). eauto.
    + destruct (IH Hrest best mx) as (tr & b & m & ->). eauto.
Qed.

(** It raises exactly the exception of some valid candidate's score. *)
Lemma search_loop_err_inv (cs : list combination) :
  forall best mx tr e,
    search_loop n data w cs best mx = (tr, Err e) ->
    exists c, In c cs /\ valid_combination c = true /\
              calculate_S_score n c data w = Err e.
Proof.
  induction cs as [|c rest IH]; simpl; intros best mx tr e H; [discriminate|].
  destruct (valid_combination c) eqn:V.
  - destruct (calculate_S_score n c data w) as [s|e'] eqn:Sc.
    + destruct (score_gt s mx).
      * destruct (search_loop n data w rest (Some c) (Fin s)) as [tr' r'] eqn:L.
        injection H as <- ->.
        destruct (IH _ _ _ _ L) as (c' & Hin & Hc'). eauto.
      * destruct (search_loop n data w rest best mx) as [tr' r'] eqn:L.
        injection H as <- ->.
        destruct (IH _ _ _ _ L) as (c' & Hin & Hc'). eauto.
    + injection H as <- <-. exists c. auto.
  - destruct (IH _ _ _ _ H) as (c' & Hin & Hc'). eauto.
Qed.

Lemma search_loop_raises (cs : list combination) (c : combination) (e : error) :
  In c cs -> valid_combination c = true ->
  calculate_S_score n c data w = Err e ->
  forall best mx, exists tr e', search_loop n data w cs best mx = (tr, Err e').
Proof.
  intros Hin V Sc best mx.
  destruct (search_loop n data w cs best mx) as [tr [[b m]|e']] eqn:L; [|eauto].
  exfalso. apply search_loop_inv in L. destruct L as [Htot _].
  destruct (Htot c Hin V) as (s & Hs). congruence.
Qed.

(** What is scored: the valid candidates, in order, up to the one whose
    score raises (if any). *)
Lemma search_loop_scored (cs : list combination) :
  forall best mx c,
    In c (scored_of (fst (search_loop n data w cs best mx))) ->
    In c cs /\ valid_combination c = true.
Proof.
  induction cs as [|c0 rest IH]; simpl; intros best mx c H; [destruct H|].
  destruct (valid_combination c0) eqn:V.
  - destruct (calculate_S_score n c0 data w) as [s|e].
    + destruct (score_gt s mx).
      * specialize (IH (Some c0) (Fin s) c).
        destruct (search_loop n data w rest (Some c0) (Fin s)) as [tr' r'].
        simpl in H, IH. destruct H as [<-|H]; [auto|]. tauto.
      * specialize (IH best mx c).
        destruct (search_loop n data w rest best mx) as [tr' r'].
        simpl in H, IH. destruct H as [<-|H]; [auto|]. tauto.
    + simpl in H. destruct H as [<-|[]]. auto.
  - specialize (IH best mx c). tauto.
Qed.

Lemma search_loop_scored_all (cs : list combination) :
  forall best mx tr r,
    search_loop n data w cs best mx = (tr, Ok r) ->
    scored_of tr = filter valid_combination cs.
Proof.
  induction cs as [|c0 rest IH]; simpl; intros best mx tr r H.
  - injection H as <- _. reflexivity.
  - destruct (valid_combination c0) eqn:V; [|eauto].
    destruct (calculate_S_score n c0 data w) as [s|e]; [|discriminate].
    destruct (score_gt s mx).
    + destruct (search_loop n data w rest (Some c0) (Fin s)) as [tr' r'] eqn:L.
      injection H as <- ->. simpl. f_equal. eauto.
    + destruct (search_loop n data w rest best mx) as [tr' r'] eqn:L.
      injection H as <- ->. simpl. f_equal. eauto.
Qed.

End SearchFacts.

(** ** Catalogs that differ only in the extinction column *)

Lemma for_each_ext {I S : Type} (idx : list I) (body1 body2 : I -> S -> result S) :
  (forall i a, body1 i a = body2 i a) ->
  forall acc, for_each idx body1 acc = for_each idx body2 acc.
Proof.
  intros Hb. induction idx as [|i rest IH]; simpl; intros acc; [reflexivity|].
  rewrite Hb. destruct (body2 i acc); simpl; auto.
Qed.

Lemma agree_keys (d1 d2 : catalog) :
  agree_up_to_Qext d1 d2 -> map fst d1 = map fst d2.
Proof.
  induction 1 as [|[k1 t1] [k2 t2] r1 r2 [Hk _] _ IH]; simpl; [reflexivity|].
  simpl in Hk. now rewrite Hk, IH.
Qed.

Lemma agree_getitem (d1 d2 : catalog) (k : string) :
  agree_up_to_Qext d1 d2 ->
  result_rel (Forall2 same_optics) (getitem d1 k) (getitem d2 k).
Proof.
  induction 1 as [|[k1 t1] [k2 t2] r1 r2 [Hk Ht] _ IH]; simpl; [reflexivity|].
  simpl in Hk, Ht. subst k2. destruct (String.eqb k1 k); [exact Ht | exact IH].
Qed.

Lemma agree_loc (t1 t2 : dataframe) (wl : Q) :
  Forall2 same_optics t1 t2 ->
  Forall2 same_optics (loc_wavelength t1 wl) (loc_wavelength t2 wl).
Proof.
  unfold loc_wavelength.
  induction 1 as [|r1 r2 l1 l2 Hr _ IH]; simpl; [constructor|].
  pose proof Hr as (Hnm & _). rewrite <- Hnm.
  destruct (Qeq_bool (nm r1) wl); [constructor|]; auto.
Qed.

Lemma agree_wavelengths (t1 t2 : dataframe) :
  Forall2 same_optics t1 t2 -> wavelengths_of t1 = wavelengths_of t2.
Proof.
  unfold wavelengths_of. intros H. f_equal.
  induction H as [|r1 r2 l1 l2 (Hnm & _) _ IH]; simpl; [reflexivity|].
  now rewrite Hnm, IH.
Qed.

Section QextIrrelevant.

Variables (d1 d2 : catalog).
Hypothesis Hagree : agree_up_to_Qext d1 d2.

Lemma agree_absorption (P : string) (wl : Q) :
  calculate_absorption d1 P wl = calculate_absorption d2 P wl.
Proof.
  unfold calculate_absorption. pose proof (agree_getitem d1 d2 P Hagree) as Hg.
  destruct (getitem d1 P) as [t1|e1], (getitem d2 P) as [t2|e2];
    simpl in *; try contradiction; [|now subst].
  destruct (agree_loc t1 t2 wl Hg) as [|r1 r2 l1 l2 (_ & _ & Ha) _];
    [reflexivity | now rewrite Ha].
Qed.

Lemma agree_scattering (P : string) (wl : Q) :
  calculate_scattering d1 P wl = calculate_scattering d2 P wl.
Proof.
  unfold calculate_scattering. pose proof (agree_getitem d1 d2 P Hagree) as Hg.
  destruct (getitem d1 P) as [t1|e1], (getitem d2 P) as [t2|e2];
    simpl in *; try contradiction; [|now subst].
  destruct (agree_loc t1 t2 wl Hg) as [|r1 r2 l1 l2 (_ & Hs & _) _];
    [reflexivity | now rewrite Hs].
Qed.

Lemma agree_score (n : Z) (c : combination) (w : weights) :
  calculate_S_score n c d1 w = calculate_S_score n c d2 w.
Proof.
  unfold calculate_S_score. apply for_each_ext. intros i a.
  unfold score_body. destruct (index c i) as [[Pi wi]|e]; simpl; [|reflexivity].
  rewrite agree_absorption, agree_scattering.
  destruct (calculate_absorption d2 Pi wi); simpl; [|reflexivity].
  destruct (calculate_scattering d2 Pi wi); simpl; [|reflexivity].
  rewrite (for_each_ext (range n) (penalty_body c d1 w i wi)
                        (penalty_body c d2 w i wi)); [reflexivity|].
  intros j b. unfold penalty_body.
  destruct (Nat.eqb i j); [reflexivity|].
  destruct (index c j) as [[Pj wj]|e]; simpl; [|reflexivity].
  now rewrite agree_absorption, agree_scattering.
Qed.

Lemma agree_search_loop (n : Z) (w : weights) (cs : list combination) :
  forall best mx,
    search_loop n d1 w cs best mx = search_loop n d2 w cs best mx.
Proof.
  induction cs as [|c rest IH]; simpl; intros best mx; [reflexivity|].
  rewrite agree_score.
  destruct (valid_combination c); [|apply IH].
  destruct (calculate_S_score n c d2 w); [|reflexivity].
  destruct (score_gt a mx); now rewrite IH.
Qed.

End QextIrrelevant.

(** ** Enumeration in lexicographic order *)

Lemma combinations_map {A B : Type} (f : A -> B) (l : list A) :
  forall r, combinations (map f l) r = map (map f) (combinations l r).
Proof.
  induction l as [|x xs IH]; intros [|r]; simpl; try reflexivity.
  rewrite map_app, !IH, !map_map. reflexivity.
Qed.

Lemma pick_all {A : Type} (d : A) (l : list A) :
  map (fun i => nth i l d) (seq 0 (length l)) = l.
Proof.
  induction l as [|x xs IH]; simpl; [reflexivity|].
  f_equal. rewrite <- seq_shift, map_map. exact IH.
Qed.

(** [combinations] runs through the tuples of positions and picks. *)
Lemma combinations_positions {A : Type} (d : A) (l : list A) (r : nat) :
  combinations l r = map (pick d l) (combinations (seq 0 (length l)) r).
Proof.
  unfold pick. rewrite <- combinations_map, pick_all. reflexivity.
Qed.

Lemma StronglySorted_app {A : Type} (R : A -> A -> Prop) (l1 l2 : list A) :
  StronglySorted R l1 -> StronglySorted R l2 ->
  (forall x y, In x l1 -> In y l2 -> R x y) ->
  StronglySorted R (l1 ++ l2).
Proof.
  induction 1 as [|x l1 Hs IH Hall]; simpl; intros H2 Hcross; [exact H2|].
  constructor.
  - apply IH; auto.
  - apply Forall_app. split; [exact Hall|].
    apply Forall_forall. intros y Hy. apply Hcross; auto.
Qed.

Lemma StronglySorted_map_cons (x : nat) (ls : list (list nat)) :
  StronglySorted lex_lt ls -> StronglySorted lex_lt (map (cons x) ls).
Proof.
  induction 1 as [|l ls Hs IH Hall]; simpl; constructor; [exact IH|].
  apply Forall_map. revert Hall. apply Forall_impl.
  intros l' Hl'. apply lex_lt_tail. exact Hl'.
Qed.

(** The tuples of positions come out in strictly increasing
    lexicographic order. *)
Lemma combinations_seq_sorted (m : nat) :
  forall a r, StronglySorted lex_lt (combinations (seq a m) r).
Proof.
  induction m as [|m IH]; intros a [|r]; simpl;
    try (repeat constructor; fail).
  apply StronglySorted_app.
  - apply StronglySorted_map_cons. apply IH.
  - apply IH.
  - intros x y Hx Hy. apply in_map_iff in Hx. destruct Hx as (x' & <- & _).
    pose proof (combinations_length _ _ _ Hy) as Hlen.
    pose proof (combinations_Subseq _ _ _ Hy) as Hsub.
    destruct y as [|y0 y]; [discriminate|].
    apply lex_lt_head.
    assert (Hin : In y0 (seq (S a) m)) by (apply (Subseq_incl _ _ Hsub); left; reflexivity).
    apply in_seq in Hin. lia.
Qed.

Lemma pairings_cons (P : string) (names : list string) (wls : list Q) :
  pairings (P :: names) wls = map (pair P) wls ++ pairings names wls.
Proof. reflexivity. Qed.

Lemma pairings_no_wavelengths (names : list string) : pairings names [] = [].
Proof. induction names as [|P names IH]; simpl; auto. Qed.

(** ** The whole call *)

Lemma combinations_0 {A : Type} (l : list A) : combinations l 0 = [[]].
Proof. destruct l; reflexivity. Qed.

Lemma combinations_nil {A : Type} (r : nat) :
  (0 < r)%nat -> combinations (@nil A) r = [].
Proof. destruct r; [lia | reflexivity]. Qed.

Lemma find_best_combination_run_eq (n : Z) (data : catalog) (w : weights) :
  data <> [] -> (0 <= n)%Z ->
  find_best_combination_run n data w
  = search_loop n data w (candidates n data) None NegInf.
Proof.
  intros Hne Hn. unfold find_best_combination_run, candidates, flat.
  destruct data as [|[k first] rest]; [congruence|].
  destruct (n <? 0)%Z eqn:E; [apply Z.ltb_lt in E; lia | reflexivity].
Qed.

Lemma flat_ids (data : catalog) (P : string) (wl : Q) :
  In (P, wl) (flat data) -> In P (map fst data).
Proof.
  unfold flat. destruct data as [|[k first] rest]; [intros []|].
  unfold universe. intros H. apply in_pairings in H. tauto.
Qed.

Lemma candidates_ids (n : Z) (data : catalog) (c : combination) :
  Subseq c (flat data) -> forall P, In P (map fst c) -> In P (map fst data).
Proof.
  intros Hsub P HP. apply in_map_iff in HP. destruct HP as ([P' wl] & <- & Hin).
  apply (flat_ids data P' wl). apply (Subseq_incl _ _ Hsub). exact Hin.
Qed.

Lemma valid_candidate_iff (n : Z) (data : catalog) (c : combination) :
  (0 <= n)%Z ->
  valid_candidate n data c <->
  In c (candidates n data) /\ valid_combination c = true.
Proof.
  intros Hn. unfold valid_candidate, candidates. split.
  - intros (Hlen & Hsub & Hnd). split.
    + apply combinations_iff. split; [exact Hsub | lia].
    + apply valid_combination_iff. exact Hnd.
  - intros (Hin & Hv). apply combinations_iff in Hin. destruct Hin as (Hsub & Hlen).
    apply valid_combination_iff in Hv. repeat split; auto. lia.
Qed.

Lemma valid_candidate_nonempty (n : Z) (data : catalog) (c : combination) :
  (1 <= n)%Z -> valid_candidate n data c -> data <> [].
Proof.
  intros Hn (Hlen & Hsub & _) ->. simpl in Hsub.
  inversion Hsub; subst; simpl in *; lia.
Qed.

Lemma search_loop_all_invalid (n : Z) (data : catalog) (w : weights)
    (cs : list combination) :
  (forall c, In c cs -> valid_combination c = false) ->
  forall best mx, search_loop n data w cs best mx = ([], Ok (best, mx)).
Proof.
  induction cs as [|c rest IH]; simpl; intros Hinv best mx; [reflexivity|].
  rewrite (Hinv c (or_introl eq_refl)). apply IH. auto.
Qed.

Lemma all_lookups_scores (n : Z) (data : catalog) (w : weights) :
  (0 <= n)%Z -> all_lookups_succeed n data ->
  forall c, In c (candidates n data) -> valid_combination c = true ->
            exists s, calculate_S_score n c data w = Ok s.
Proof.
  intros Hn Hall c Hin Hv.
  assert (Hvc : valid_candidate n data c) by (apply valid_candidate_iff; auto).
  destruct (calculate_S_score_ok data w c (Hall c Hvc)) as (s & Hs & _).
  destruct Hvc as (Hlen & _). rewrite Hlen in Hs. eauto.
Qed.

(** ** The sample data, evaluated *)

Example example_run :
  find_best_combination_run 2 example_catalog scattering_only
  = ([Scored [("A"%string, 400); ("B"%string, 400)];
      Printed [("A"%string, 400); ("B"%string, 400)] 0;
      Scored [("A"%string, 400); ("B"%string, 500)];
      Printed [("A"%string, 400); ("B"%string, 500)] 8;
      Scored [("A"%string, 500); ("B"%string, 400)];
      Scored [("A"%string, 500); ("B"%string, 500)]],
     Ok (Some [("A"%string, 400); ("B"%string, 500)], Fin 8)).
Proof. vm_compute. reflexivity. Qed.

Example example_crossed :
  calculate_S_score 2 [("A"%string, 500); ("B"%string, 400)]
                    example_catalog scattering_only = Ok (-8).
Proof. vm_compute. reflexivity. Qed.

Example example_unique : unique [1 # 2; 3; 2 # 4; 3; 5] = [1 # 2; 3; 5].
Proof. reflexivity. Qed.

Example example_shared_wavelength :
  valid_combination [("A"%string, 400); ("B"%string, 400)] = true /\
  valid_combination [("A"%string, 400); ("A"%string, 500)] = false.
Proof. split; reflexivity. Qed.

Example example_combinations :
  combinations [1; 2; 3]%nat 2 = [[1; 2]; [1; 3]; [2; 3]]%nat.
Proof. reflexivity. Qed.

Example example_negative_n :
  find_best_combination (-1) example_catalog scattering_only = Err NegativeR.
Proof. reflexivity. Qed.

Example example_short_tuple :
  calculate_S_score 2 [("A"%string, 400)] example_catalog scattering_only
  = Err IndexError.
Proof. vm_compute. reflexivity. Qed.

Lemma example_lookups (c : combination) :
  Subseq c (flat example_catalog) -> lookups_succeed example_catalog c.
Proof.
  intros Hsub P wl HP Hwl.
  apply in_map_iff in HP. destruct HP as ([P' x] & HP' & HinP).
  apply in_map_iff in Hwl. destruct Hwl as ([y wl'] & Hwl' & Hinw).
  simpl in HP', Hwl'. subst P' wl'.
  apply (Subseq_incl _ _ Hsub) in HinP. apply (Subseq_incl _ _ Hsub) in Hinw.
  vm_compute in HinP, Hinw.
  repeat (destruct HinP as [HinP|HinP]; [injection HinP as <- <-|]);
    try contradiction;
    repeat (destruct Hinw as [Hinw|Hinw]; [injection Hinw as <- <-|]);
    try contradiction; vm_compute; discriminate.
Qed.

(** * The specification's properties *)

(** ** C3 *)

(** C3.  For [n >= 1], if some valid candidate needs a lookup of a
    (nanoparticle, wavelength) pair that has no record, the whole call
    raises the wavelength-not-found error of a missing record: the
    candidate is not skipped and no (assignment, score) is returned. *)
Theorem C3_lookup_failure_aborts (n : Z) (data : catalog) (w : weights)
    (c : combination) (P : string) (wl : Q) :
  (1 <= n)%Z -> valid_candidate n data c ->
  In P (map fst c) -> In wl (map snd c) -> record_at data P wl = None ->
  exists P' wl',
    find_best_combination n data w = Err (WavelengthNotFound P' wl') /\
    record_at data P' wl' = None.
Proof.
  intros Hn Hvc HP Hwl Hnone.
  assert (Hn0 : (0 <= n)%Z) by lia.
  pose proof (valid_candidate_nonempty n data c Hn Hvc) as Hne.
  unfold find_best_combination.
  rewrite (find_best_combination_run_eq n data w Hne Hn0).
  pose proof Hvc as (Hlen & _).
  apply (valid_candidate_iff n data c Hn0) in Hvc. destruct Hvc as (Hin & Hv).
  destruct (calculate_S_score_missing data w c P wl HP Hwl Hnone) as (e & He).
  rewrite Hlen in He.
  destruct (search_loop_raises n data w _ c e Hin Hv He None NegInf)
    as (tr & e' & L).
  rewrite L. simpl.
  apply search_loop_err_inv in L. destruct L as (c' & Hin' & Hv' & He').
  assert (Hvc' : valid_candidate n data c') by (apply valid_candidate_iff; auto).
  destruct Hvc' as (Hlen' & Hsub' & _). rewrite <- Hlen' in He'.
  apply calculate_S_score_err in He'.
  - destruct He' as (P' & wl' & -> & _ & _ & Hn'). eauto.
  - apply (candidates_ids n). exact Hsub'.
Qed.

Lemma C3_witness :
  exists P' wl',
    find_best_combination 1 gappy_catalog scattering_only
    = Err (WavelengthNotFound P' wl') /\
    record_at gappy_catalog P' wl' = None.
Proof.
  apply (C3_lookup_failure_aborts 1 gappy_catalog scattering_only
           [("B"%string, 500)] "B"%string 500).
  - lia.
  - split; [reflexivity|]. split.
    + vm_compute. repeat constructor.
    + simpl. repeat constructor. simpl. tauto.
  - simpl. auto.
  - simpl. auto.
  - reflexivity.
Defined.

(** ** C4 *)

(** C4, as stated, fails for the empty catalog: the call raises on
    [nanoparticles[0]] instead of returning [(None, -inf)]. *)
Lemma C4_counterexample :
  find_best_combination 1 [] scattering_only = Err IndexError /\
  find_best_combination 1 [] scattering_only <> Ok (None, NegInf).
Proof. split; [reflexivity | discriminate]. Qed.

(** C4 (amended).  For [n >= 1], a call on a non-empty catalog whose first
    table has no wavelength generates no candidate, scores nothing and
    returns [(None, -inf)]. *)
Theorem C4_no_wavelengths (n : Z) (w : weights) (k : string)
    (first : dataframe) (rest : catalog) :
  (1 <= n)%Z -> wavelengths_of first = [] ->
  candidates n ((k, first) :: rest) = [] /\
  scored_candidates n ((k, first) :: rest) w = [] /\
  find_best_combination n ((k, first) :: rest) w = Ok (None, NegInf).
Proof.
  intros Hn Hw.
  assert (Hcs : candidates n ((k, first) :: rest) = []).
  { unfold candidates, flat, universe. rewrite Hw, pairings_no_wavelengths.
    apply combinations_nil. lia. }
  assert (Hrun : find_best_combination_run n ((k, first) :: rest) w
                 = ([], Ok (None, NegInf))).
  { rewrite find_best_combination_run_eq by (try discriminate; lia).
    rewrite Hcs. reflexivity. }
  unfold find_best_combination, scored_candidates. rewrite Hrun. auto.
Qed.

Lemma C4_witness :
  candidates 3 [("A"%string, []); ("B"%string, [mkRow 400 1 1 0])] = [] /\
  scored_candidates 3 [("A"%string, []); ("B"%string, [mkRow 400 1 1 0])]
                    scattering_only = [] /\
  find_best_combination 3 [("A"%string, []); ("B"%string, [mkRow 400 1 1 0])]
                        scattering_only = Ok (None, NegInf).
Proof.
  apply (C4_no_wavelengths 3 scattering_only "A"%string []
           [("B"%string, [mkRow 400 1 1 0])]).
  - lia.
  - reflexivity.
Defined.

(** ** C5 *)

(** C5.  Every candidate handed to [calculate_S_score] has exactly [n]
    pairs with pairwise-distinct identifiers; a candidate with a repeated
    identifier is never scored; distinct identifiers alone make a candidate
    valid, whatever its wavelengths; and when the call returns, every
    enumerated candidate with distinct identifiers has been scored. *)
Theorem C5_scored_candidates_valid (n : Z) (data : catalog) (w : weights) :
  (forall c, In c (scored_candidates n data w) ->
             Z.of_nat (length c) = n /\ NoDup (map fst c)) /\
  (forall c, ~ NoDup (map fst c) -> ~ In c (scored_candidates n data w)) /\
  (forall c, NoDup (map fst c) -> valid_combination c = true) /\
  (forall r c, find_best_combination n data w = Ok r ->
               In c (candidates n data) -> NoDup (map fst c) ->
               In c (scored_candidates n data w)).
Proof.
  assert (Hscored : forall c, In c (scored_candidates n data w) ->
                              Z.of_nat (length c) = n /\ NoDup (map fst c)).
  { unfold scored_candidates, find_best_combination_run.
    destruct data as [|[k first] rest]; [intros c []|].
    destruct (n <? 0)%Z eqn:E; [intros c []|].
    apply Z.ltb_ge in E. intros c Hc.
    apply search_loop_scored in Hc. destruct Hc as (Hin & Hv).
    apply combinations_length in Hin. apply valid_combination_iff in Hv.
    split; [lia | exact Hv]. }
  split; [exact Hscored|]. split; [|split].
  - intros c Hdup Hin. apply Hdup. apply (Hscored c Hin).
  - intros c Hnd. apply valid_combination_iff. exact Hnd.
  - unfold find_best_combination, scored_candidates, candidates, flat,
      find_best_combination_run.
    intros r c. destruct data as [|[k first] rest]; [discriminate|].
    destruct (n <? 0)%Z; [discriminate|].
    destruct (search_loop n ((k, first) :: rest) w
                (combinations (universe ((k, first) :: rest) first) (Z.to_nat n))
                None NegInf) as [tr res] eqn:L.
    simpl. intros -> Hin Hnd.
    rewrite (search_loop_scored_all _ _ _ _ _ _ _ _ L).
    apply filter_In. split; [exact Hin|]. apply valid_combination_iff. exact Hnd.
Qed.

(** ** C6 *)

(** C6.  For a non-empty catalog, when [n] exceeds the number of distinct
    identifiers the call returns [(None, -inf)] and raises nothing. *)
Theorem C6_too_few_nanoparticles (n : Z) (data : catalog) (w : weights) :
  data <> [] ->
  (Z.of_nat (length (nodup string_dec (map fst data))) < n)%Z ->
  find_best_combination n data w = Ok (None, NegInf).
Proof.
  intros Hne Hn. unfold find_best_combination.
  rewrite find_best_combination_run_eq by (auto; lia).
  rewrite search_loop_all_invalid; [reflexivity|].
  intros c Hin. destruct (valid_combination c) eqn:V; [|reflexivity].
  exfalso. apply valid_combination_iff in V.
  apply combinations_iff in Hin. destruct Hin as (Hsub & Hlen).
  pose proof (distinct_ids_bound c (map fst data) V (candidates_ids n data c Hsub)).
  lia.
Qed.

Lemma C6_witness :
  find_best_combination 3 example_catalog scattering_only = Ok (None, NegInf).
Proof.
  apply (C6_too_few_nanoparticles 3 example_catalog scattering_only).
  - discriminate.
  - vm_compute. reflexivity.
Defined.

(** ** C8 *)

(** C8.  With a non-empty catalog, [n = 0] yields the empty assignment
    (not [None]) with score [0]. *)
Theorem C8_zero_size (data : catalog) (w : weights) :
  data <> [] ->
  find_best_combination 0 data w = Ok (Some [], Fin 0).
Proof.
  intros Hne. unfold find_best_combination.
  rewrite find_best_combination_run_eq by (auto; lia).
  unfold candidates. simpl. rewrite combinations_0. reflexivity.
Qed.

Lemma C8_witness :
  find_best_combination 0 example_catalog scattering_only = Ok (Some [], Fin 0).
Proof.
  apply (C8_zero_size example_catalog scattering_only). discriminate.
Defined.

(** ** C10 *)

(** C10.  Two catalogs with the same identifiers and the same wavelength,
    scattering and absorption columns, whatever their extinction columns,
    give the same result for the same [n] and weights. *)
Theorem C10_Qext_irrelevant (n : Z) (d1 d2 : catalog) (w : weights) :
  agree_up_to_Qext d1 d2 ->
  find_best_combination n d1 w = find_best_combination n d2 w.
Proof.
  intros Hagree. unfold find_best_combination, find_best_combination_run.
  pose proof (agree_keys d1 d2 Hagree) as Hkeys.
  destruct Hagree as [|[k1 t1] [k2 t2] r1 r2 [Hk Ht] Hrest]; [reflexivity|].
  destruct (n <? 0)%Z; [reflexivity|].
  unfold universe. rewrite Hkeys, (agree_wavelengths t1 t2 Ht).
  rewrite agree_search_loop with (d2 := (k2, t2) :: r2); [reflexivity|].
  constructor; auto.
Qed.

Lemma C10_witness :
  find_best_combination 2 example_catalog scattering_only
  = find_best_combination 2 example_catalog_Qext scattering_only.
Proof.
  apply (C10_Qext_irrelevant 2 example_catalog example_catalog_Qext
           scattering_only).
  repeat constructor.
Defined.


(** * Further properties of the code *)

(** ** The lookups *)

Lemma loc_wavelength_none (df : dataframe) (wl : Q) :
  (forall r, In r df -> ~ nm r == wl) -> loc_wavelength df wl = [].
Proof.
  unfold loc_wavelength. induction df as [|r df IH]; simpl; intros H; [reflexivity|].
  destruct (Qeq_bool (nm r) wl) eqn:E.
  - apply Qeq_bool_iff in E. exfalso. apply (H r); auto.
  - apply IH. intros r' Hr'. apply H. auto.
Qed.

Lemma loc_wavelength_first (pre post : dataframe) (r : row) (wl : Q) :
  (forall r', In r' pre -> ~ nm r' == wl) -> nm r == wl ->
  loc_wavelength (pre ++ r :: post) wl = r :: loc_wavelength post wl.
Proof.
  unfold loc_wavelength. intros Hpre Hr. rewrite filter_app.
  fold (loc_wavelength pre wl). rewrite (loc_wavelength_none pre wl Hpre).
  simpl. apply Qeq_bool_iff in Hr. rewrite Hr. reflexivity.
Qed.

Lemma getitem_missing (data : catalog) (k : string) :
  ~ In k (map fst data) -> getitem data k = Err (KeyError k).
Proof.
  intros Hn. destruct (getitem data k) as [df|e] eqn:G.
  - exfalso. apply Hn. clear Hn. revert G.
    induction data as [|[k' df'] rest IH]; simpl; [discriminate|].
    destruct (String.eqb k' k) eqn:E; [|auto].
    apply String.eqb_eq in E. auto.
  - apply getitem_err in G. destruct G as [-> _]. reflexivity.
Qed.

(** X1.  What the two lookups return: a [KeyError] for an identifier that
    is not in the catalog; the wavelength-not-found error when no row of
    the identifier's table has the wavelength; otherwise the [Qabs]
    (respectively [Qsca]) entry of the first row that has it, whatever
    rows follow. *)
Theorem X1_lookup_cases (data : catalog) (P : string) (wl : Q) :
  (~ In P (map fst data) ->
   calculate_absorption data P wl = Err (KeyError P) /\
   calculate_scattering data P wl = Err (KeyError P)) /\
  (forall df, getitem data P = Ok df ->
              (forall r, In r df -> ~ nm r == wl) ->
   calculate_absorption data P wl = Err (WavelengthNotFound P wl) /\
   calculate_scattering data P wl = Err (WavelengthNotFound P wl)) /\
  (forall pre r post, getitem data P = Ok (pre ++ r :: post) ->
                      (forall r', In r' pre -> ~ nm r' == wl) -> nm r == wl ->
   calculate_absorption data P wl = Ok (Qabs r) /\
   calculate_scattering data P wl = Ok (Qsca r)).
Proof.
  unfold calculate_absorption, calculate_scattering. split; [|split].
  - intros Hn. rewrite (getitem_missing data P Hn). auto.
  - intros df -> Hnone. simpl. rewrite (loc_wavelength_none df wl Hnone). auto.
  - intros pre r post -> Hpre Hr. simpl.
    rewrite (loc_wavelength_first pre post r wl Hpre Hr). auto.
Qed.

(** X2.  The two lookups stand or fall together: [calculate_scattering]
    raises exactly when [calculate_absorption] does, with the same
    exception. *)
Theorem X2_lookups_fail_together (data : catalog) (P : string) (wl : Q)
    (e : error) :
  calculate_absorption data P wl = Err e <->
  calculate_scattering data P wl = Err e.
Proof.
  unfold calculate_absorption, calculate_scattering.
  destruct (getitem data P) as [df|e']; simpl; [|tauto].
  destruct (loc_wavelength df wl); split; intros H; try discriminate; exact H.
Qed.

(** ** The score on tuples of other lengths *)

Lemma for_each_app {I S : Type} (l1 l2 : list I) (body : I -> S -> result S) :
  forall acc,
    for_each (l1 ++ l2) body acc
    = bind (for_each l1 body acc) (for_each l2 body).
Proof.
  induction l1 as [|i l1 IH]; simpl; intros acc; [reflexivity|].
  destruct (body i acc); simpl; auto.
Qed.

Lemma for_each_ext_in {I S : Type} (idx : list I)
    (body1 body2 : I -> S -> result S) :
  (forall i a, In i idx -> body1 i a = body2 i a) ->
  forall acc, for_each idx body1 acc = for_each idx body2 acc.
Proof.
  induction idx as [|i rest IH]; simpl; intros Hb acc; [reflexivity|].
  rewrite (Hb i acc (or_introl eq_refl)).
  destruct (body2 i acc); simpl; auto.
Qed.

Lemma range_split (n : Z) (c : combination) :
  (length c < Z.to_nat n)%nat ->
  range n = seq 0 (length c) ++ length c :: seq (S (length c)) (Z.to_nat n - S (length c)).
Proof.
  intros H. unfold range.
  replace (Z.to_nat n) with (length c + S (Z.to_nat n - S (length c)))%nat at 1 by lia.
  rewrite seq_app. reflexivity.
Qed.

(** X3.  A tuple shorter than [n] cannot be scored: when every lookup
    succeeds, [calculate_S_score] raises the index error of
    [combination[j]] (or [combination[i]]) instead of returning. *)
Theorem X3_short_tuple_raises (n : Z) (data : catalog) (w : weights)
    (c : combination) :
  (length c < Z.to_nat n)%nat -> lookups_succeed data c ->
  calculate_S_score n c data w = Err IndexError.
Proof.
  intros Hlen Hlook. unfold calculate_S_score.
  destruct c as [|p0 c'] eqn:Ec.
  - unfold range. destruct (Z.to_nat n) as [|m]; simpl in *; [lia | reflexivity].
  - rewrite <- Ec in *.
    assert (Hpos : (0 < length c)%nat) by (rewrite Ec; simpl; lia).
    unfold range at 1. destruct (Z.to_nat n) as [|m] eqn:En; [lia|].
    simpl. unfold score_body at 1.
    rewrite index_lt by lia. simpl.
    destruct (pair_at c 0) as [P0 w0] eqn:E0.
    destruct (record_at data P0 w0) as [r|] eqn:Hr.
    2:{ exfalso. apply (Hlook P0 w0).
        - change P0 with (fst (P0, w0)). rewrite <- E0.
          apply in_map, pair_at_in, Hpos.
        - change w0 with (snd (P0, w0)). rewrite <- E0.
          apply in_map, pair_at_in, Hpos.
        - exact Hr. }
    rewrite (calculate_absorption_some _ _ _ _ Hr). simpl.
    rewrite (calculate_scattering_some _ _ _ _ Hr). simpl.
    rewrite (range_split n c) by lia.
    rewrite for_each_app.
    destruct (penalty_loop_ok data w c Hlook 0 Hpos) as (v & Ev & _).
    rewrite E0 in Ev. simpl in Ev. rewrite Ev. simpl.
    unfold penalty_body at 1.
    destruct (length c) as [|k] eqn:Ek; [lia|].
    simpl. rewrite index_ge by lia. reflexivity.
Qed.

Lemma X3_witness :
  calculate_S_score 2 [("A"%string, 400)] example_catalog scattering_only
  = Err IndexError.
Proof.
  apply (X3_short_tuple_raises 2 example_catalog scattering_only
           [("A"%string, 400)]).
  - simpl. lia.
  - apply example_lookups. vm_compute. repeat constructor.
Defined.

Lemma index_firstn (c : combination) (m i : nat) :
  (i < m)%nat -> index (firstn m c) i = index c i.
Proof.
  intros Hi. unfold index. rewrite nth_error_firstn.
  destruct (Nat.ltb_spec i m); [reflexivity | lia].
Qed.

(** X4.  Only the first [n] pairs of the tuple count: the score of a
    tuple, its exceptions included, is that of its first [n] pairs. *)
Theorem X4_score_reads_first_n (n : Z) (data : catalog) (w : weights)
    (c : combination) :
  calculate_S_score n c data w
  = calculate_S_score n (firstn (Z.to_nat n) c) data w.
Proof.
  unfold calculate_S_score. apply for_each_ext_in. intros i a Hi.
  unfold range in Hi. apply in_seq in Hi.
  unfold score_body. rewrite index_firstn by lia.
  destruct (index c i) as [[Pi wi]|e]; simpl; [|reflexivity].
  destruct (calculate_absorption data Pi wi); simpl; [|reflexivity].
  destruct (calculate_scattering data Pi wi); simpl; [|reflexivity].
  rewrite (for_each_ext_in (range n) (penalty_body c data w i wi)
             (penalty_body (firstn (Z.to_nat n) c) data w i wi)); [reflexivity|].
  intros j b Hj. unfold range in Hj. apply in_seq in Hj.
  unfold penalty_body. rewrite index_firstn by lia. reflexivity.
Qed.

(** ** The exceptions of the search *)

Lemma unique_in (l : list Q) (x : Q) : In x (unique l) -> In x l.
Proof.
  induction l as [|y l IH]; simpl; [tauto|].
  intros [->|H]; [auto|]. apply filter_In in H. right. apply IH. tauto.
Qed.

Lemma flat_wavelengths (k : string) (first : dataframe) (rest : catalog)
    (P : string) (wl : Q) :
  In (P, wl) (flat ((k, first) :: rest)) -> In wl (map nm first).
Proof.
  unfold flat, universe. intros H. apply in_pairings in H.
  apply unique_in. apply H.
Qed.

(** X8.  The only exceptions [find_best_combination] raises: the index
    error of [nanoparticles[0]], exactly on the empty catalog; the error of
    [combinations] on a negative [n]; and the wavelength-not-found error,
    for an identifier of the catalog and a wavelength of the first table
    that has no record.  It never raises a [KeyError], nor an index error
    on a non-empty catalog. *)
Theorem X8_search_exceptions (n : Z) (data : catalog) (w : weights) (e : error) :
  find_best_combination n data w = Err e ->
  (data = [] /\ e = IndexError) \/
  (data <> [] /\ (n < 0)%Z /\ e = NegativeR) \/
  (exists k first rest P wl,
      data = (k, first) :: rest /\ (0 <= n)%Z /\
      e = WavelengthNotFound P wl /\
      In P (map fst data) /\ In wl (map nm first) /\
      record_at data P wl = None).
Proof.
  unfold find_best_combination, find_best_combination_run.
  destruct data as [|[k first] rest].
  - simpl. intros [= <-]. auto.
  - destruct (n <? 0)%Z eqn:En.
    + simpl. intros [= <-]. apply Z.ltb_lt in En. right. left.
      repeat split; [discriminate | exact En].
    + apply Z.ltb_ge in En. intros H. right. right.
      set (data := (k, first) :: rest) in *.
      destruct (search_loop n data w
                  (combinations (universe data first) (Z.to_nat n)) None NegInf)
        as [tr r] eqn:L.
      simpl in H. subst r.
      apply search_loop_err_inv in L. destruct L as (c & Hin & Hv & He).
      apply combinations_iff in Hin. destruct Hin as (Hsub & Hlen).
      replace n with (Z.of_nat (length c)) in He by lia.
      apply calculate_S_score_err in He.
      * destruct He as (P & wl & -> & HP & Hwl & Hnone).
        exists k, first, rest, P, wl. repeat split; auto.
        -- apply (candidates_ids n data c Hsub). exact HP.
        -- apply in_map_iff in Hwl. destruct Hwl as ([P' wl'] & Hw & Hin').
           simpl in Hw. subst wl'.
           apply (flat_wavelengths k first rest P').
           apply (Subseq_incl _ _ Hsub). exact Hin'.
      * apply (candidates_ids n data c Hsub).
Qed.

Lemma X8_witness :
  (gappy_catalog = [] /\ WavelengthNotFound "B" 500 = IndexError) \/
  (gappy_catalog <> [] /\ (1 < 0)%Z /\ WavelengthNotFound "B" 500 = NegativeR) \/
  (exists k first rest P wl,
      gappy_catalog = (k, first) :: rest /\ (0 <= 1)%Z /\
      WavelengthNotFound "B" 500 = WavelengthNotFound P wl /\
      In P (map fst gappy_catalog) /\ In wl (map nm first) /\
      record_at gappy_catalog P wl = None).
Proof.
  apply (X8_search_exceptions 1 gappy_catalog scattering_only
           (WavelengthNotFound "B" 500)).
  vm_compute. reflexivity.
Defined.

(** X9.  On a non-empty catalog and for [n >= 0], the search returns
    normally exactly when every lookup needed to score a valid candidate
    finds its record. *)
Theorem X9_returns_iff_lookups (n : Z) (data : catalog) (w : weights) :
  data <> [] -> (0 <= n)%Z ->
  ((exists r, find_best_combination n data w = Ok r) <->
   all_lookups_succeed n data).
Proof.
  intros Hne Hn. unfold find_best_combination.
  rewrite (find_best_combination_run_eq n data w Hne Hn). split.
  - intros (r & H) c Hvc.
    destruct (search_loop n data w (candidates n data) None NegInf)
      as [tr r'] eqn:L.
    simpl in H. subst r'. destruct r as [b m].
    apply search_loop_inv in L. destruct L as [Htot _].
    pose proof Hvc as (Hlen & _).
    apply (valid_candidate_iff n data c Hn) in Hvc. destruct Hvc as (Hin & Hv).
    destruct (Htot c Hin Hv) as (s & Hs). rewrite <- Hlen in Hs.
    apply (calculate_S_score_ok_inv data w c s Hs).
  - intros Hall.
    destruct (search_loop_total n data w (candidates n data)
                (all_lookups_scores n data w Hn Hall) None NegInf)
      as (tr & b & m & L).
    rewrite L. simpl. eauto.
Qed.

Lemma X9_witness :
  (exists r, find_best_combination 2 example_catalog scattering_only = Ok r) <->
  all_lookups_succeed 2 example_catalog.
Proof.
  apply (X9_returns_iff_lookups 2 example_catalog scattering_only).
  - discriminate.
  - lia.
Defined.

(** ** What is printed and what is returned *)

Lemma search_loop_prints (n : Z) (data : catalog) (w : weights)
    (cs : list combination) :
  forall best mx tr r,
    search_loop n data w cs best mx = (tr, r) ->
    StronglySorted (fun x y => snd x < snd y) (printed_of tr) /\
    Forall (fun x => score_gt (snd x) mx = true) (printed_of tr) /\
    (forall b m, r = Ok (b, m) ->
       (printed_of tr = [] /\ b = best /\ m = mx) \/
       (exists init c s, printed_of tr = init ++ [(c, s)] /\
                         b = Some c /\ m = Fin s)).
Proof.
  induction cs as [|c rest IH]; simpl; intros best mx tr r H.
  - injection H as <- <-. simpl. split; [constructor|]. split; [constructor|].
    intros b m [= <- <-]. left. auto.
  - destruct (valid_combination c); [|eauto].
    destruct (calculate_S_score n c data w) as [s|e].
    + destruct (score_gt s mx) eqn:G.
      * destruct (search_loop n data w rest (Some c) (Fin s)) as [tr' r'] eqn:L.
        injection H as <- <-.
        destruct (IH _ _ _ _ L) as (Hs & Hall & Hres).
        change (printed_of (Scored c :: Printed c s :: tr'))
          with ((c, s) :: printed_of tr').
        split; [|split].
        -- constructor; [exact Hs|]. revert Hall. apply Forall_impl.
           intros x Hx. apply score_gt_Fin in Hx. exact Hx.
        -- constructor; [exact G|]. revert Hall. apply Forall_impl.
           intros x Hx. apply score_gt_Fin in Hx.
           apply score_gt_mono with (s := s); [exact G | lra].
        -- intros b m Hr. right.
           destruct (Hres b m Hr) as [(E & -> & ->)|(init & c' & s' & E & -> & ->)].
           ++ exists [], c, s. rewrite E. auto.
           ++ exists ((c, s) :: init), c', s'. rewrite E. auto.
      * destruct (search_loop n data w rest best mx) as [tr' r'] eqn:L.
        injection H as <- <-.
        change (printed_of (Scored c :: tr')) with (printed_of tr'). eauto.
    + injection H as <- <-. simpl. split; [constructor|]. split; [constructor|].
      intros b m [=].
Qed.

(** X10.  The scores printed as new bests grow strictly from one print to
    the next, and when the search returns, the last print is the result;
    if nothing was printed the result is [(None, -inf)]. *)
Theorem X10_prints_increase (n : Z) (data : catalog) (w : weights) :
  StronglySorted (fun x y => snd x < snd y)
                 (printed_of (fst (find_best_combination_run n data w))) /\
  (forall b m, find_best_combination n data w = Ok (b, m) ->
     (printed_of (fst (find_best_combination_run n data w)) = [] /\
      b = None /\ m = NegInf) \/
     (exists init c s,
        printed_of (fst (find_best_combination_run n data w)) = init ++ [(c, s)] /\
        b = Some c /\ m = Fin s)).
Proof.
  unfold find_best_combination, find_best_combination_run.
  destruct data as [|[k first] rest]; simpl.
  { split; [constructor | intros b m [=]]. }
  destruct (n <? 0)%Z; simpl.
  { split; [constructor | intros b m [=]]. }
  destruct (search_loop n ((k, first) :: rest) w
              (combinations (universe ((k, first) :: rest) first) (Z.to_nat n))
              None NegInf) as [tr r] eqn:L.
  destruct (search_loop_prints _ _ _ _ _ _ _ _ L) as (Hs & _ & Hres).
  simpl. split; [exact Hs | exact Hres].
Qed.

(** X11.  A returned assignment has [n] pairs with pairwise-distinct
    identifiers of the catalog, every wavelength in it occurs in the first
    table of the catalog (wavelengths found only in other tables are never
    chosen), and the returned maximum is its score; a returned [None] comes
    with [-inf]. *)
Theorem X11_result_shape (n : Z) (data : catalog) (w : weights)
    (b : option combination) (m : score) :
  find_best_combination n data w = Ok (b, m) ->
  (b = None /\ m = NegInf) \/
  (exists c s k first rest,
     b = Some c /\ m = Fin s /\ data = (k, first) :: rest /\
     Z.of_nat (length c) = n /\ NoDup (map fst c) /\
     (forall P wl, In (P, wl) c -> In P (map fst data) /\ In wl (map nm first)) /\
     calculate_S_score n c data w = Ok s).
Proof.
  unfold find_best_combination, find_best_combination_run.
  destruct data as [|[k first] rest]; [discriminate|].
  destruct (n <? 0)%Z eqn:En; [discriminate|]. apply Z.ltb_ge in En.
  set (data := (k, first) :: rest) in *.
  destruct (search_loop n data w
              (combinations (universe data first) (Z.to_nat n)) None NegInf)
    as [tr r] eqn:L.
  simpl. intros ->. apply search_loop_inv in L. destruct L as [_ Hcase].
  destruct Hcase as [(-> & -> & _)|(c & s & -> & -> & _ & FB)]; [auto|].
  right. destruct FB as (pre & post & E & V & Sc & _).
  assert (Hin : In c (combinations (universe data first) (Z.to_nat n)))
    by (rewrite E; apply in_or_app; right; left; reflexivity).
  apply combinations_iff in Hin. destruct Hin as (Hsub & Hlen).
  exists c, s, k, first, rest. repeat split; auto.
  - lia.
  - apply valid_combination_iff. exact V.
  - apply (flat_ids data P wl). apply (Subseq_incl _ _ Hsub). exact H.
  - apply (flat_wavelengths k first rest P).
    apply (Subseq_incl _ _ Hsub). exact H.
Qed.

Lemma X11_witness :
  (Some [("A"%string, 400); ("B"%string, 500)] = None /\ Fin 8 = NegInf) \/
  (exists c s k first rest,
     Some [("A"%string, 400); ("B"%string, 500)] = Some c /\ Fin 8 = Fin s /\
     example_catalog = (k, first) :: rest /\
     Z.of_nat (length c) = 2%Z /\ NoDup (map fst c) /\
     (forall P wl, In (P, wl) c ->
                   In P (map fst example_catalog) /\ In wl (map nm first)) /\
     calculate_S_score 2 c example_catalog scattering_only = Ok s).
Proof.
  apply (X11_result_shape 2 example_catalog scattering_only
           (Some [("A"%string, 400); ("B"%string, 500)]) (Fin 8)).
  vm_compute. reflexivity.
Defined.

(** ** No tuple is met twice *)

Lemma unique_NoDup (l : list Q) : NoDup (unique l).
Proof.
  induction l as [|x l IH]; simpl; constructor.
  - intros H. apply filter_In in H. destruct H as [_ H].
    rewrite Qeq_bool_refl in H. discriminate.
  - apply NoDup_filter. exact IH.
Qed.

Lemma NoDup_map_injective {A B : Type} (f : A -> B) (l : list A) :
  (forall x y, f x = f y -> x = y) -> NoDup l -> NoDup (map f l).
Proof.
  intros Hinj. induction 1 as [|x l Hnotin Hnd IH]; simpl; constructor; [|exact IH].
  intros H. apply in_map_iff in H. destruct H as (y & Hy & Hin).
  apply Hinj in Hy. subst y. contradiction.
Qed.

Lemma pairings_NoDup (names : list string) (wls : list Q) :
  NoDup names -> NoDup wls -> NoDup (pairings names wls).
Proof.
  intros Hn Hw. induction Hn as [|P names Hnotin Hn IH].
  - constructor.
  - rewrite pairings_cons. apply NoDup_app.
    + apply NoDup_map_injective; [|exact Hw].
      intros x y [= ->]. reflexivity.
    + exact IH.
    + intros [P' wl] H1 H2. apply in_map_iff in H1.
      destruct H1 as (wl' & [= <- <-] & _).
      apply in_pairings in H2. tauto.
Qed.

Lemma combinations_NoDup {A : Type} (l : list A) :
  NoDup l -> forall r, NoDup (combinations l r).
Proof.
  induction 1 as [|x xs Hnotin Hnd IH]; intros [|r]; simpl;
    try (repeat constructor; simpl; tauto).
  apply NoDup_app.
  - apply NoDup_map_injective; [|apply IH].
    intros a b [= ->]. reflexivity.
  - apply IH.
  - intros c H1 H2. apply in_map_iff in H1. destruct H1 as (c' & <- & _).
    apply combinations_Subseq in H2.
    apply Hnotin. apply (Subseq_incl _ _ H2). left. reflexivity.
Qed.

Lemma search_loop_scored_NoDup (n : Z) (data : catalog) (w : weights)
    (cs : list combination) :
  NoDup cs ->
  forall best mx, NoDup (scored_of (fst (search_loop n data w cs best mx))).
Proof.
  induction 1 as [|c rest Hnotin Hnd IH]; simpl; intros best mx; [constructor|].
  destruct (valid_combination c); [|apply IH].
  destruct (calculate_S_score n c data w) as [s|e].
  - destruct (score_gt s mx).
    + pose proof (IH (Some c) (Fin s)) as Hnd'.
      pose proof (search_loop_scored n data w rest (Some c) (Fin s) c) as Hin.
      destruct (search_loop n data w rest (Some c) (Fin s)) as [tr r].
      simpl in *. constructor; [tauto | exact Hnd'].
    + pose proof (IH best mx) as Hnd'.
      pose proof (search_loop_scored n data w rest best mx c) as Hin.
      destruct (search_loop n data w rest best mx) as [tr r].
      simpl in *. constructor; [tauto | exact Hnd'].
  - simpl. repeat constructor. simpl. tauto.
Qed.

(** X12.  With pairwise-distinct identifiers in the catalog (as the keys
    of a dict are), the enumeration meets no tuple twice, so that no
    candidate is scored more than once. *)
Theorem X12_no_candidate_twice (n : Z) (data : catalog) (w : weights) :
  NoDup (map fst data) ->
  NoDup (candidates n data) /\ NoDup (scored_candidates n data w).
Proof.
  intros Hkeys.
  assert (Hflat : NoDup (flat data)).
  { unfold flat. destruct data as [|[k first] rest]; [constructor|].
    unfold universe. apply pairings_NoDup; [exact Hkeys | apply unique_NoDup]. }
  split.
  - apply combinations_NoDup. exact Hflat.
  - unfold scored_candidates, find_best_combination_run.
    destruct data as [|[k first] rest]; [constructor|].
    destruct (n <? 0)%Z; [constructor|].
    apply search_loop_scored_NoDup. apply combinations_NoDup. exact Hflat.
Qed.

Lemma X12_witness :
  NoDup (candidates 2 example_catalog) /\
  NoDup (scored_candidates 2 example_catalog scattering_only).
Proof.
  apply (X12_no_candidate_twice 2 example_catalog scattering_only).
  simpl. repeat constructor; simpl; intuition discriminate.
Defined.

(** ** How many tuples are enumerated *)

Lemma pairings_length (names : list string) (wls : list Q) :
  length (pairings names wls) = (length names * length wls)%nat.
Proof.
  unfold pairings. induction names as [|P names IH]; [reflexivity|].
  simpl. rewrite length_app, length_map. f_equal. exact IH.
Qed.

Lemma combinations_too_many {A : Type} (l : list A) :
  forall r, (length l < r)%nat -> combinations l r = [].
Proof.
  induction l as [|x xs IH]; intros [|r] H; simpl in *; try lia; [reflexivity|].
  rewrite (IH r) by lia. rewrite (IH (S r)) by lia. reflexivity.
Qed.

(** The number of length-[r] subsequences is the binomial coefficient. *)
Lemma combinations_count {A : Type} (l : list A) :
  forall r, (r <= length l)%nat ->
    (length (combinations l r) * (fact r * fact (length l - r)) = fact (length l))%nat.
Proof.
  induction l as [|x xs IH]; intros [|r] H; simpl in H.
  - reflexivity.
  - lia.
  - rewrite combinations_0. simpl fact at 1. simpl length. simpl Nat.sub. lia.
  - cbn [combinations length]. rewrite length_app, length_map.
    replace (S (length xs) - S r)%nat with (length xs - r)%nat by lia.
    assert (H1 := IH r ltac:(lia)).
    destruct (Nat.eq_dec r (length xs)) as [->|Hne].
    + rewrite (combinations_too_many xs (S (length xs))) by lia.
      rewrite Nat.sub_diag in *. cbn [length]. rewrite Nat.add_0_r.
      change (fact (S (length xs))) with (S (length xs) * fact (length xs))%nat.
      nia.
    + assert (H2 := IH (S r) ltac:(lia)).
      replace (length xs - r)%nat with (S (length xs - S r)) in * by lia.
      change (fact (S (length xs))) with (S (length xs) * fact (length xs))%nat.
      change (fact (S r)) with (S r * fact r)%nat in *.
      change (fact (S (length xs - S r)))
        with (S (length xs - S r) * fact (length xs - S r))%nat in *.
      assert (Hm : (length xs = r + S (length xs - S r))%nat) by lia.
      set (a := length (combinations xs r)) in *.
      set (b := length (combinations xs (S r))) in *.
      set (fr := fact r) in *. set (fk := fact (length xs - S r)) in *.
      set (k := (length xs - S r)%nat) in *.
      set (N := fact (length xs)) in *.
      rewrite Hm at 1. nia.
Qed.



(** ** Loading *)

Lemma setitem_keys_old (data : catalog) (k : string) (df : dataframe) :
  In k (map fst data) -> map fst (setitem data k df) = map fst data.
Proof.
  induction data as [|[k' df'] rest IH]; simpl; [tauto|].
  intros Hin. destruct (String.eqb k' k) eqn:E; simpl; [reflexivity|].
  apply String.eqb_neq in E. f_equal. apply IH. tauto.
Qed.

Lemma setitem_keys_new (data : catalog) (k : string) (df : dataframe) :
  ~ In k (map fst data) -> map fst (setitem data k df) = map fst data ++ [k].
Proof.
  induction data as [|[k' df'] rest IH]; simpl; [reflexivity|].
  intros Hn. destruct (String.eqb k' k) eqn:E; simpl.
  - apply String.eqb_eq in E. tauto.
  - f_equal. apply IH. tauto.
Qed.

Lemma setitem_NoDup (data : catalog) (k : string) (df : dataframe) :
  NoDup (map fst data) -> NoDup (map fst (setitem data k df)).
Proof.
  intros Hnd.
  destruct (in_dec string_dec k (map fst data)) as [Hin|Hn].
  - rewrite setitem_keys_old by exact Hin. exact Hnd.
  - rewrite setitem_keys_new by exact Hn.
    apply NoDup_app; [exact Hnd | repeat constructor; simpl; tauto |].
    intros x Hx [<-|[]]. contradiction.
Qed.

Lemma getitem_setitem_same (data : catalog) (k : string) (df : dataframe) :
  NoDup (map fst data) -> getitem (setitem data k df) k = Ok df.
Proof.
  induction data as [|[k' df'] rest IH]; simpl; intros Hnd.
  - rewrite String.eqb_refl. reflexivity.
  - destruct (String.eqb k' k) eqn:E; simpl; rewrite E; [reflexivity|].
    apply IH. inversion Hnd. assumption.
Qed.

Lemma getitem_setitem_other (data : catalog) (k k' : string) (df : dataframe) :
  k' <> k -> getitem (setitem data k df) k' = getitem data k'.
Proof.
  intros Hne. induction data as [|[k0 df0] rest IH]; simpl.
  - destruct (String.eqb_spec k k'); [congruence | reflexivity].
  - destruct (String.eqb_spec k0 k) as [->|Hk0]; simpl.
    + destruct (String.eqb_spec k k'); [congruence | reflexivity].
    + rewrite IH. reflexivity.
Qed.

Lemma load_into_NoDup (files : list datafile) :
  forall data, NoDup (map fst data) -> NoDup (map fst (load_into data files)).
Proof.
  induction files as [|f files IH]; simpl; intros data Hnd; [exact Hnd|].
  apply IH. apply setitem_NoDup. exact Hnd.
Qed.

Lemma load_into_keys (files : list datafile) :
  forall data k,
    In k (map fst (load_into data files)) <->
    In k (map fst data) \/ In k (map (fun f => material_of (fst f)) files).
Proof.
  induction files as [|f files IH]; simpl; intros data k; [tauto|].
  rewrite IH.
  destruct (in_dec string_dec (material_of (fst f)) (map fst data)) as [Hin|Hn].
  - rewrite setitem_keys_old by exact Hin.
    split; [tauto|]. intros [H|[<-|H]]; auto.
  - rewrite setitem_keys_new by exact Hn.
    rewrite in_app_iff. simpl. tauto.
Qed.

Lemma load_into_other (files : list datafile) (k : string) :
  (forall f, In f files -> material_of (fst f) <> k) ->
  forall data, getitem (load_into data files) k = getitem data k.
Proof.
  induction files as [|f files IH]; simpl; intros Hne data; [reflexivity|].
  rewrite IH by auto. apply getitem_setitem_other.
  intros E. apply (Hne f); auto.
Qed.

Lemma before_dot_no_dot (s : string) :
  ~ In "."%char (list_ascii_of_string (before_dot s)).
Proof.
  induction s as [|ch s IH]; simpl; [tauto|].
  destruct (Ascii.eqb_spec ch ".") as [->|Hne]; simpl; [tauto|].
  intros [E|H]; [congruence | contradiction].
Qed.

Lemma has_slash_iff (s : string) :
  has_slash s = true <-> In "/"%char (list_ascii_of_string s).
Proof.
  induction s as [|ch s IH]; simpl; [split; [discriminate | tauto]|].
  rewrite orb_true_iff, IH.
  destruct (Ascii.eqb_spec ch "/") as [->|Hne]; split; auto.
  - intros [H|H]; [discriminate | auto].
  - intros [E|H]; [congruence | auto].
Qed.

Lemma basename_no_slash (s : string) : has_slash (basename s) = false.
Proof.
  induction s as [|ch s IH]; simpl; [reflexivity|].
  destruct (has_slash s) eqn:E; [exact IH|].
  destruct (Ascii.eqb ch "/") eqn:E2; [exact E|].
  simpl. rewrite E2, E. reflexivity.
Qed.

Lemma before_dot_in (s : string) (ch : ascii) :
  In ch (list_ascii_of_string (before_dot s)) -> In ch (list_ascii_of_string s).
Proof.
  induction s as [|c0 s IH]; simpl; [tauto|].
  destruct (Ascii.eqb c0 "."); simpl; [tauto|].
  intros [E|H]; auto.
Qed.

Lemma material_of_clean (path : string) :
  ~ In "."%char (list_ascii_of_string (material_of path)) /\
  ~ In "/"%char (list_ascii_of_string (material_of path)).
Proof.
  unfold material_of. split; [apply before_dot_no_dot|].
  intros H. apply before_dot_in in H. apply has_slash_iff in H.
  rewrite basename_no_slash in H. discriminate.
Qed.

(** X14.  The identifiers [load_data] produces are pairwise distinct, they
    are exactly the file names cut at their first dot, and none contains a
    dot or a slash; there are at most as many as files. *)
Theorem X14_load_data_keys (files : list datafile) :
  NoDup (map fst (load_data files)) /\
  (forall k, In k (map fst (load_data files)) <->
             exists f, In f files /\ k = material_of (fst f)) /\
  (forall k, In k (map fst (load_data files)) ->
             ~ In "."%char (list_ascii_of_string k) /\
             ~ In "/"%char (list_ascii_of_string k)) /\
  (length (load_data files) <= length files)%nat.
Proof.
  assert (Hnd : NoDup (map fst (load_data files)))
    by (apply (load_into_NoDup files []); constructor).
  assert (Hkeys : forall k, In k (map fst (load_data files)) <->
                            exists f, In f files /\ k = material_of (fst f)).
  { intros k. unfold load_data. fold (load_into [] files).
    rewrite load_into_keys. simpl. rewrite in_map_iff. split.
    - intros [[]|(f & E & Hf)]. eauto.
    - intros (f & Hf & E). right. eauto. }
  split; [exact Hnd|]. split; [exact Hkeys|]. split.
  - intros k Hk. apply Hkeys in Hk. destruct Hk as (f & _ & ->).
    apply material_of_clean.
  - assert (E1 : length (map fst (load_data files)) = length (load_data files))
      by apply length_map.
    assert (E2 : length (map (fun f : datafile => material_of (fst f)) files)
                 = length files) by apply length_map.
    rewrite <- E1, <- E2.
    apply NoDup_incl_length; [exact Hnd|].
    intros k Hk. apply Hkeys in Hk. destruct Hk as (f & Hf & ->).
    apply in_map_iff. eauto.
Qed.

(** X15.  Of the files whose names agree up to their first dot, only the
    last one read is kept: looking its identifier up in the loaded catalog
    gives its table. *)
Theorem X15_load_data_last_wins (pre post : list datafile) (path : string)
    (df : dataframe) :
  (forall f, In f post -> material_of (fst f) <> material_of path) ->
  getitem (load_data (pre ++ (path, df) :: post)) (material_of path) = Ok df.
Proof.
  intros Hpost.
  assert (E : load_data (pre ++ (path, df) :: post)
              = load_into (setitem (load_into [] pre) (material_of path) df) post).
  { unfold load_data, load_into. rewrite fold_left_app. reflexivity. }
  rewrite E, (load_into_other post (material_of path) Hpost).
  apply getitem_setitem_same. apply load_into_NoDup. constructor.
Qed.

Lemma X15_witness :
  getitem (load_data example_files) (material_of "data/Au50.v2.dat")
  = Ok [mkRow 400 2 2 2; mkRow 500 3 3 3].
Proof.
  apply (X15_load_data_last_wins
           [("data/Au50.dat"%string, [mkRow 400 6 5 0]);
            ("data/Ag.80nm.dat"%string, [mkRow 400 1 1 0])]
           [] "data/Au50.v2.dat"%string [mkRow 400 2 2 2; mkRow 500 3 3 3]).
  intros f [].
Defined.

Example example_material :
  map (fun f => material_of (fst f)) example_files
  = ["Au50"%string; "Ag"%string; "Au50"%string] /\
  map fst (load_data example_files) = ["Au50"%string; "Ag"%string].
Proof. split; reflexivity. Qed.

(** ** The entry point *)

Lemma too_few_identifiers (n : Z) (data : catalog) (w : weights) :
  data <> [] -> (Z.of_nat (length (map fst data)) < n)%Z ->
  find_best_combination n data w = Ok (None, NegInf).
Proof.
  intros Hne Hn. unfold find_best_combination.
  rewrite find_best_combination_run_eq by (auto; lia).
  rewrite search_loop_all_invalid; [reflexivity|].
  intros c Hin. destruct (valid_combination c) eqn:V; [|reflexivity].
  exfalso. apply valid_combination_iff in V.
  apply combinations_iff in Hin. destruct Hin as (Hsub & Hlen).
  assert (Hle : (length (map fst c) <= length (map fst data))%nat).
  { apply NoDup_incl_length; [exact V|].
    intros P HP. apply (candidates_ids n data c Hsub P HP). }
  assert (E : length (map fst c) = length c) by apply length_map.
  lia.
Qed.

Lemma load_data_nonempty (files : list datafile) :
  files <> [] -> load_data files <> [].
Proof.
  destruct files as [|f files]; [congruence|]. intros _ E.
  assert (H : In (material_of (fst f)) (map fst (load_data (f :: files)))).
  { unfold load_data. fold (load_into [] (f :: files)).
    apply load_into_keys. right. left. reflexivity. }
  rewrite E in H. destruct H.
Qed.

(** X16.  [main] asks for three pairings: when the data files yield only
    one or two identifiers it ends with [(None, -inf)], whatever the tables
    hold; when there is no data file it raises the index error. *)
Theorem X16_main_needs_three (files : list datafile) :
  files <> [] -> (length (load_data files) < 3)%nat ->
  main files = Ok (None, NegInf) /\ main [] = Err IndexError.
Proof.
  intros Hne Hlen. split; [|reflexivity].
  unfold main. apply too_few_identifiers.
  - apply load_data_nonempty. exact Hne.
  - rewrite length_map. lia.
Qed.

Lemma X16_witness :
  main example_files = Ok (None, NegInf) /\ main [] = Err IndexError.
Proof.
  apply (X16_main_needs_three example_files).
  - discriminate.
  - simpl. lia.
Defined.

(** ** A sufficient condition for the search to return *)

Lemma getitem_in_data (data : catalog) (k : string) (df : dataframe) :
  getitem data k = Ok df -> In (k, df) data.
Proof.
  induction data as [|[k' df'] rest IH]; simpl; [discriminate|].
  destruct (String.eqb k' k) eqn:E; [|auto].
  apply String.eqb_eq in E. intros [= ->]. subst. auto.
Qed.

Lemma record_at_found (data : catalog) (P : string) (wl : Q) :
  In P (map fst data) ->
  (forall df, In (P, df) data -> exists r, In r df /\ nm r == wl) ->
  record_at data P wl <> None.
Proof.
  intros HP Hrows. unfold record_at.
  destruct (getitem_in data P HP) as (df & G). rewrite G.
  destruct (Hrows df (getitem_in_data data P df G)) as (r & Hr & E).
  assert (Hin : In r (loc_wavelength df wl)).
  { apply filter_In. split; [exact Hr|]. apply Qeq_bool_iff. exact E. }
  destruct (loc_wavelength df wl); [destruct Hin | discriminate].
Qed.

(** X17.  If every table of the catalog has a row for every wavelength of
    the first table, the search raises nothing for any [n >= 0]: it
    returns a result. *)
Theorem X17_complete_tables_return (n : Z) (k : string) (first : dataframe)
    (rest : catalog) (w : weights) :
  (0 <= n)%Z ->
  (forall P df wl, In (P, df) ((k, first) :: rest) -> In wl (map nm first) ->
                   exists r, In r df /\ nm r == wl) ->
  exists r, find_best_combination n ((k, first) :: rest) w = Ok r.
Proof.
  intros Hn Hfull. set (data := (k, first) :: rest) in *.
  assert (Hall : all_lookups_succeed n data).
  { intros c (_ & Hsub & _) P wl HP Hwl.
    apply in_map_iff in Hwl. destruct Hwl as ([P' wl'] & E & Hin).
    simpl in E. subst wl'.
    apply record_at_found.
    - apply (candidates_ids n data c Hsub P HP).
    - intros df Hdf. apply (Hfull P df wl Hdf).
      apply (flat_wavelengths k first rest P').
      apply (Subseq_incl _ _ Hsub). exact Hin. }
  unfold find_best_combination.
  rewrite find_best_combination_run_eq by (try discriminate; exact Hn).
  destruct (search_loop_total n data w (candidates n data)
              (all_lookups_scores n data w Hn Hall) None NegInf)
    as (tr & b & m & L).
  rewrite L. simpl. eauto.
Qed.

Lemma X17_witness :
  exists r, find_best_combination 2 example_catalog scattering_only = Ok r.
Proof.
  apply (X17_complete_tables_return 2 "A"%string
           [mkRow 400 6 5 0; mkRow 500 1 1 0]
           [("B"%string, [mkRow 400 1 1 0; mkRow 500 5 5 0])] scattering_only).
  - lia.
  - intros P df wl HP Hwl. simpl in HP, Hwl.
    destruct HP as [[= <- <-]|[[= <- <-]|[]]];
      destruct Hwl as [<-|[<-|[]]];
      first [ eexists; split; [left; reflexivity | reflexivity]
            | eexists; split; [right; left; reflexivity | reflexivity] ].
Defined.


(** * Properties over machine numbers *)

Module NumericFacts.

Import Numeric.
Local Open Scope num_scope.

Section Generic.

Context {A : Arith}.

(** ** Lookups and loops *)

Lemma getitem_in_num (data : catalog) (k : string) :
  In k (map fst data) -> exists df, getitem data k = Ok df.
Proof.
  induction data as [|[k' df] rest IH]; simpl; [tauto|].
  intros [->|Hin].
  - rewrite String.eqb_refl. eauto.
  - destruct (String.eqb k' k); eauto.
Qed.

Lemma absorption_found (data : catalog) (P : string) (wl : num) (r : row) :
  record_at data P wl = Some r -> calculate_absorption data P wl = Ok (Qabs r).
Proof.
  unfold record_at, calculate_absorption.
  destruct (getitem data P) as [df|e]; simpl; [|discriminate].
  destruct (loc_wavelength df wl); simpl; [discriminate|].
  now intros [= ->].
Qed.

Lemma scattering_found (data : catalog) (P : string) (wl : num) (r : row) :
  record_at data P wl = Some r -> calculate_scattering data P wl = Ok (Qsca r).
Proof.
  unfold record_at, calculate_scattering.
  destruct (getitem data P) as [df|e]; simpl; [|discriminate].
  destruct (loc_wavelength df wl); simpl; [discriminate|].
  now intros [= ->].
Qed.

(** A loop whose body never raises is a left fold. *)
Lemma for_each_fold {I S : Type} (idx : list I) (body : I -> S -> result S)
    (g : S -> I -> S) :
  (forall i a, In i idx -> body i a = Ok (g a i)) ->
  forall acc, for_each idx body acc = Ok (fold_left g idx acc).
Proof.
  induction idx as [|i rest IH]; simpl; intros Hb acc; [reflexivity|].
  rewrite (Hb i acc (or_introl eq_refl)). simpl.
  apply IH. intros j a Hj. apply Hb. auto.
Qed.

Lemma fold_left_guarded {I S : Type} (p : I -> bool) (f : S -> I -> S)
    (l : list I) :
  forall acc,
    fold_left (fun a j => if p j then f a j else a) l acc
    = fold_left f (filter p l) acc.
Proof.
  induction l as [|x l IH]; simpl; intros acc; [reflexivity|].
  destruct (p x); simpl; apply IH.
Qed.

Lemma fold_left_terms {I : Type} (g : I -> num) (l : list I) :
  forall acc,
    fold_left (fun a j => add a (g j)) l acc = fold_left add (map g l) acc.
Proof.
  induction l as [|x l IH]; simpl; intros acc; [reflexivity | apply IH].
Qed.

Lemma index_lt_num (c : combination) (i : nat) :
  (i < length c)%nat -> index c i = Ok (pair_at c i).
Proof.
  intros Hi. unfold index, pair_at.
  rewrite (nth_error_nth' c (EmptyString, zero) Hi). reflexivity.
Qed.

Lemma pair_at_in_num (c : combination) (i : nat) :
  (i < length c)%nat -> In (pair_at c i) c.
Proof. intros Hi. apply nth_In. exact Hi. Qed.

Lemma range_of_nat (m : nat) : range (Z.of_nat m) = seq 0 m.
Proof. unfold range. rewrite Nat2Z.id. reflexivity. Qed.

(** ** The score *)

Lemma found (data : catalog) (c : combination) (i j : nat) :
  lookups_succeed data c -> (i < length c)%nat -> (j < length c)%nat ->
  exists r, record_at data (fst (pair_at c j)) (snd (pair_at c i)) = Some r.
Proof.
  intros Hlook Hi Hj.
  destruct (record_at data (fst (pair_at c j)) (snd (pair_at c i))) eqn:E; eauto.
  exfalso. apply (Hlook (fst (pair_at c j)) (snd (pair_at c i))); auto.
  - apply in_map, pair_at_in_num, Hj.
  - apply in_map, pair_at_in_num, Hi.
Qed.

Lemma response_found (data : catalog) (w : weights) (P : string) (wl : num)
    (r : row) :
  record_at data P wl = Some r ->
  add (mul (scattering w) (Qsca r)) (mul (absorption w) (Qabs r))
  = response data w P wl.
Proof.
  intros H. unfold response, scattering_at, absorption_at. rewrite H. reflexivity.
Qed.

Lemma penalty_loop (data : catalog) (w : weights) (c : combination) (i : nat) :
  lookups_succeed data c -> (i < length c)%nat ->
  for_each (seq 0 (length c))
           (penalty_body (Z.of_nat (length c)) c data w i (snd (pair_at c i))) zero
  = Ok (penalty data w c i).
Proof.
  intros Hlook Hi.
  rewrite (for_each_fold _ _
             (fun a j => if negb (Nat.eqb i j)
                         then add a (response data w (fst (pair_at c j))
                                               (snd (pair_at c i)))
                         else a)).
  - f_equal. unfold penalty, sum.
    rewrite (fold_left_guarded (fun j => negb (Nat.eqb i j))
               (fun a j => add a (response data w (fst (pair_at c j))
                                           (snd (pair_at c i))))).
    apply fold_left_terms.
  - intros j a Hj. apply in_seq in Hj. unfold penalty_body.
    destruct (Nat.eqb i j); simpl; [reflexivity|].
    rewrite index_lt_num by lia. simpl.
    destruct (found data c i j Hlook) as (r & Hr); [lia | lia |].
    destruct (pair_at c j) as [Pj wj]. simpl in Hr |- *.
    rewrite (absorption_found _ _ _ _ Hr). simpl.
    rewrite (scattering_found _ _ _ _ Hr). simpl.
    rewrite (response_found data w _ _ _ Hr). reflexivity.
Qed.

(** The two loops of [calculate_S_score] compute the formula. *)
Lemma calculate_S_score_formula (data : catalog) (w : weights) (c : combination) :
  lookups_succeed data c ->
  calculate_S_score (Z.of_nat (length c)) c data w = Ok (score_spec data w c).
Proof.
  intros Hlook. unfold calculate_S_score. rewrite range_of_nat.
  rewrite (for_each_fold _ _ (fun a i => add a (contribution data w c i))).
  - f_equal. unfold score_spec, sum. apply fold_left_terms.
  - intros i a Hi. apply in_seq in Hi. unfold score_body.
    rewrite index_lt_num by lia. simpl.
    destruct (found data c i i Hlook) as (r & Hr); [lia | lia |].
    pose proof (penalty_loop data w c i Hlook) as Hp.
    unfold contribution, ownScore.
    destruct (pair_at c i) as [Pi wi]. simpl in Hr, Hp |- *.
    rewrite (absorption_found _ _ _ _ Hr). simpl.
    rewrite (scattering_found _ _ _ _ Hr). simpl.
    rewrite range_of_nat, Hp by lia. simpl.
    rewrite (response_found data w _ _ _ Hr). reflexivity.
Qed.

(** ** The validity check and the candidates *)

Lemma valid_from_iff_num (c : combination) :
  forall used,
    valid_from used c = true <->
    NoDup (map fst c) /\ forall P, In P (map fst c) -> ~ set_In P used.
Proof.
  induction c as [|[np wl] rest IH]; intros used; simpl.
  - split; [intros _; split; [constructor | tauto] | reflexivity].
  - destruct (set_mem string_dec np used) eqn:E.
    + apply set_mem_correct1 in E. split; [discriminate|].
      intros [_ H]. exfalso. apply (H np); auto.
    + apply set_mem_complete1 in E. rewrite IH. split.
      * intros [Hnd Hfresh]. split.
        -- constructor; [|exact Hnd].
           intros Hin. apply (Hfresh np Hin). apply set_add_intro2. reflexivity.
        -- intros P [<-|HP]; [exact E|].
           intros Hu. apply (Hfresh P HP). apply set_add_intro1. exact Hu.
      * intros [Hnd Hfresh]. inversion Hnd as [|x l Hnotin Hnd']; subst.
        split; [exact Hnd'|].
        intros P HP Hu. apply set_add_elim in Hu. destruct Hu as [->|Hu].
        -- contradiction.
        -- apply (Hfresh P); auto.
Qed.

Lemma valid_combination_iff_num (c : combination) :
  valid_combination c = true <-> NoDup (map fst c).
Proof.
  unfold valid_combination. rewrite valid_from_iff_num. split.
  - tauto.
  - intros H. split; [exact H|]. intros P _ [].
Qed.

Lemma valid_candidate_iff_num (n : Z) (data : catalog) (c : combination) :
  (0 <= n)%Z ->
  valid_candidate n data c <->
  In c (candidates n data) /\ valid_combination c = true.
Proof.
  intros Hn. unfold valid_candidate, candidates. split.
  - intros (Hlen & Hsub & Hnd). split.
    + apply combinations_iff. split; [exact Hsub | lia].
    + apply valid_combination_iff_num. exact Hnd.
  - intros (Hin & Hv). apply combinations_iff in Hin. destruct Hin as (Hsub & Hlen).
    apply valid_combination_iff_num in Hv. repeat split; auto. lia.
Qed.

Lemma find_best_combination_run_eq_num (n : Z) (data : catalog) (w : weights) :
  data <> [] -> (0 <= n)%Z ->
  find_best_combination_run n data w
  = search_loop n data w (candidates n data) None neg_inf.
Proof.
  intros Hne Hn. unfold find_best_combination_run.
  destruct data as [|e rest]; [congruence|].
  destruct (n <? 0)%Z eqn:E; [apply Z.ltb_lt in E; lia | reflexivity].
Qed.

Lemma all_lookups_scores_num (n : Z) (data : catalog) (w : weights) :
  (0 <= n)%Z -> all_lookups_succeed n data ->
  forall c, In c (candidates n data) -> valid_combination c = true ->
            exists s, calculate_S_score n c data w = Ok s.
Proof.
  intros Hn Hall c Hin Hv.
  assert (Hvc : valid_candidate n data c) by (apply valid_candidate_iff_num; auto).
  pose proof (calculate_S_score_formula data w c (Hall c Hvc)) as Hs.
  destruct Hvc as (Hlen & _). rewrite Hlen in Hs. eauto.
Qed.

Lemma pairings_nth (names : list string) (wls : list num) :
  forall a b, (a < length names)%nat -> (b < length wls)%nat ->
    nth_error (pairings names wls) (a * length wls + b)
    = Some (nth a names EmptyString, nth b wls zero).
Proof.
  unfold pairings.
  induction names as [|P names IH]; intros a b Ha Hb; simpl in Ha; [lia|].
  simpl flat_map. destruct a as [|a].
  - rewrite nth_error_app1 by (rewrite length_map; simpl; lia).
    simpl. rewrite nth_error_map, (nth_error_nth' wls zero Hb). reflexivity.
  - rewrite nth_error_app2 by (rewrite length_map; simpl; lia).
    rewrite length_map.
    replace (S a * length wls + b - length wls)%nat
      with (a * length wls + b)%nat by (simpl; lia).
    simpl. apply IH; lia.
Qed.

(** ** The running maximum *)

(** The loop returns normally when every valid candidate can be scored. *)
Lemma search_loop_total_num (n : Z) (data : catalog) (w : weights)
    (cs : list combination) :
  (forall c, In c cs -> valid_combination c = true ->
             exists s, calculate_S_score n c data w = Ok s) ->
  forall best mx, exists tr b m,
    search_loop n data w cs best mx = (tr, Ok (b, m)).
Proof.
  induction cs as [|c rest IH]; simpl; intros Hok best mx.
  - eauto.
  - assert (Hrest : forall c', In c' rest -> valid_combination c' = true ->
                               exists s, calculate_S_score n c' data w = Ok s)
      by (intros; apply Hok; auto).
    destruct (valid_combination c) eqn:V; [|apply IH; exact Hrest].
    destruct (Hok c (or_introl eq_refl) V) as (s & ->).
    destruct (gtb s mx).
    + destruct (IH Hrest (Some c) s) as (tr & b & m & ->). eauto.
    + destruct (IH Hrest best mx) as (tr & b & m & ->). eauto.
Qed.

Section Ordered.

Hypothesis Hord : ordered A.

Lemma gtb_asym (a b : num) : gtb a b = true -> gtb b a = false.
Proof.
  intros H. destruct (gtb b a) eqn:E; [|reflexivity].
  pose proof (gtb_trans A Hord a b a H E) as Haa.
  rewrite (gtb_irrefl A Hord a) in Haa. discriminate.
Qed.

Lemma gtb_not_below (s s' m : num) :
  gtb s m = true -> gtb s' m = false ->
  gtb s' s = false /\ eqb s' s = false.
Proof.
  intros Hs Hs'. split.
  - destruct (gtb s' s) eqn:E; [|reflexivity].
    rewrite (gtb_trans A Hord s' s m E Hs) in Hs'. discriminate.
  - destruct (eqb s' s) eqn:E; [|reflexivity].
    rewrite (eqb_gtb_l A Hord s' s m E), Hs in Hs'. discriminate.
Qed.

Lemma gtb_not_above (s s' : num) :
  gtb s s' = true -> gtb s' s = false /\ eqb s' s = false.
Proof.
  intros H. split; [apply gtb_asym; exact H|].
  destruct (eqb s' s) eqn:E; [|reflexivity].
  rewrite (eqb_gtb_r A Hord s' s s E), (gtb_irrefl A Hord s) in H.
  discriminate.
Qed.

(** The loop invariant, read off a normal return: either the state never
    changed and no valid candidate scored more than the initial maximum,
    or the result is the first candidate whose score none exceeds. *)
Lemma search_loop_inv_num (n : Z) (data : catalog) (w : weights)
    (cs : list combination) :
  forall best mx tr b m,
    search_loop n data w cs best mx = (tr, Ok (b, m)) ->
    (b = best /\ m = mx /\
     forall c s, In c cs -> valid_combination c = true ->
                 calculate_S_score n c data w = Ok s -> gtb s mx = false)
    \/
    (exists c, b = Some c /\ gtb m mx = true /\ first_best n data w cs c m).
Proof.
  induction cs as [|c rest IH]; simpl; intros best mx tr b m H.
  - injection H as <- <- <-. left. repeat split. intros c s [].
  - destruct (valid_combination c) eqn:V.
    + destruct (calculate_S_score n c data w) as [s|e] eqn:Sc; [|discriminate].
      destruct (gtb s mx) eqn:G.
      * destruct (search_loop n data w rest (Some c) s) as [tr' r'] eqn:L.
        injection H as <- ->. right.
        destruct (IH _ _ _ _ _ L) as [(-> & -> & Hle)|(c2 & -> & G2 & FB)].
        -- exists c. split; [reflexivity|]. split; [exact G|].
           exists [], rest. split; [reflexivity|]. split; [exact V|].
           split; [exact Sc|]. split; [intros c' s' []|exact Hle].
        -- exists c2. split; [reflexivity|].
           split; [exact (gtb_trans A Hord m s mx G2 G)|].
           destruct FB as (pre & post & -> & V2 & Sc2 & Hpre & Hpost).
           exists (c :: pre), post. split; [reflexivity|]. split; [exact V2|].
           split; [exact Sc2|]. split; [|exact Hpost].
           intros c' s' [<-|Hin] Hv Hs; [|eauto].
           rewrite Sc in Hs. injection Hs as <-.
           apply gtb_not_above. exact G2.
      * destruct (search_loop n data w rest best mx) as [tr' r'] eqn:L.
        injection H as <- ->.
        destruct (IH _ _ _ _ _ L) as [(-> & -> & Hle)|(c2 & -> & G2 & FB)].
        -- left. repeat split.
           intros c' s' [<-|Hin] Hv Hs; [|eauto].
           rewrite Sc in Hs. injection Hs as <-. exact G.
        -- right. exists c2. split; [reflexivity|]. split; [exact G2|].
           destruct FB as (pre & post & -> & V2 & Sc2 & Hpre & Hpost).
           exists (c :: pre), post. split; [reflexivity|]. split; [exact V2|].
           split; [exact Sc2|]. split; [|exact Hpost].
           intros c' s' [<-|Hin] Hv Hs; [|eauto].
           rewrite Sc in Hs. injection Hs as <-.
           apply (gtb_not_below m s mx G2 G).
    + destruct (IH _ _ _ _ _ H) as [(-> & -> & Hle)|(c2 & -> & G2 & FB)].
      * left. repeat split.
        intros c' s' [<-|Hin] Hv Hs; [congruence | eauto].
      * right. exists c2. split; [reflexivity|]. split; [exact G2|].
        destruct FB as (pre & post & -> & V2 & Sc2 & Hpre & Hpost).
        exists (c :: pre), post. split; [reflexivity|]. split; [exact V2|].
        split; [exact Sc2|]. split; [|exact Hpost].
        intros c' s' [<-|Hin] Hv Hs; [congruence | eauto].
Qed.

End Ordered.

(** ** Scaled weights *)

Section Scaled.

Variables (k : num) (n : Z) (data : catalog) (w : weights).
Variable all : list combination.

Hypothesis Hexact : forall c a,
  In c all -> valid_combination c = true ->
  calculate_S_score n c data w = Ok a ->
  calculate_S_score n c data (scale k w) = Ok (mul k a).

Hypothesis Hpairs : forall c c' a b,
  In c all -> valid_combination c = true ->
  In c' all -> valid_combination c' = true ->
  calculate_S_score n c data w = Ok a ->
  calculate_S_score n c' data w = Ok b ->
  gtb (mul k a) (mul k b) = gtb a b.

(** The search under the scaled weights moves in step with the search
    under [w], as long as the two maxima compare alike with every score. *)
Lemma search_loop_scale (cs : list combination) :
  (forall c, In c cs -> In c all) ->
  forall best m1 m2 tr b m,
    (forall c a, In c all -> valid_combination c = true ->
                 calculate_S_score n c data w = Ok a ->
                 gtb (mul k a) m2 = gtb a m1) ->
    search_loop n data w cs best m1 = (tr, Ok (b, m)) ->
    exists tr' m',
      search_loop n data (scale k w) cs best m2 = (tr', Ok (b, m')) /\
      ((b = best /\ m = m1 /\ m' = m2) \/
       (exists c, b = Some c /\ m' = mul k m)).
Proof.
  induction cs as [|c rest IH]; simpl; intros Hincl best m1 m2 tr b m Hrel H.
  - injection H as <- <- <-. exists [], m2. auto.
  - assert (Hrest : forall c', In c' rest -> In c' all) by auto.
    destruct (valid_combination c) eqn:V; [|eauto].
    destruct (calculate_S_score n c data w) as [a|e] eqn:Sc; [|discriminate].
    rewrite (Hexact c a (Hincl c (or_introl eq_refl)) V Sc).
    rewrite (Hrel c a (Hincl c (or_introl eq_refl)) V Sc).
    destruct (gtb a m1).
    + destruct (search_loop n data w rest (Some c) a) as [tr1 r1] eqn:L.
      injection H as <- ->.
      destruct (IH Hrest (Some c) a (mul k a) tr1 b m) as (tr' & m' & L' & Hcase);
        [|exact L|].
      { intros c' b' Hin' Hv' Hs'.
        apply (Hpairs c' c b' a); auto. }
      rewrite L'. exists (Scored c :: Printed c (mul k a) :: tr'), m'.
      split; [reflexivity|]. right.
      destruct Hcase as [(-> & -> & ->)|(c2 & -> & ->)]; eauto.
    + destruct (search_loop n data w rest best m1) as [tr1 r1] eqn:L.
      injection H as <- ->.
      destruct (IH Hrest best m1 m2 tr1 b m Hrel L) as (tr' & m' & L' & Hcase).
      rewrite L'. exists (Scored c :: tr'), m'. auto.
Qed.

End Scaled.

(** Lookups that succeed on the whole flat list succeed on every
    candidate. *)
Lemma all_lookups_flat (n : Z) (data : catalog) :
  (forall P wl, In P (map fst (flat data)) -> In wl (map snd (flat data)) ->
                record_at data P wl <> None) ->
  all_lookups_succeed n data.
Proof.
  intros H c (_ & Hsub & _) P wl HP Hwl. apply H.
  - apply in_map_iff in HP. destruct HP as (p & <- & Hp).
    apply in_map. apply (Subseq_incl _ _ Hsub). exact Hp.
  - apply in_map_iff in Hwl. destruct Hwl as (p & <- & Hp).
    apply in_map. apply (Subseq_incl _ _ Hsub). exact Hp.
Qed.

End Generic.

(** ** Binary64 comparisons *)

Lemma SFcompare_eq_l (x y z : spec_float) :
  SFcompare x y = Some Eq -> SFcompare x z = SFcompare y z.
Proof.
  destruct x as [sx|sx| |sx mx ex], y as [sy|sy| |sy my ey]; simpl;
    try discriminate; try (destruct sx, sy; discriminate).
  - intros _. destruct z; reflexivity.
  - destruct sx, sy; try discriminate; intros _; destruct z; reflexivity.
  - destruct sx, sy; try discriminate.
    + destruct (Z.compare_spec ex ey); try discriminate.
      subst. intros H. injection H as H.
      destruct (Pos.compare_cont Eq mx my) eqn:E; try discriminate.
      apply Pos.compare_eq in E. subst. reflexivity.
    + destruct (Z.compare_spec ex ey); try discriminate.
      subst. intros H. injection H as H.
      apply Pos.compare_eq in H. subst. reflexivity.
Qed.

Lemma SFcompare_eq_r (x y z : spec_float) :
  SFcompare x y = Some Eq -> SFcompare z x = SFcompare z y.
Proof.
  destruct x as [sx|sx| |sx mx ex], y as [sy|sy| |sy my ey]; simpl;
    try discriminate; try (destruct sx, sy; discriminate).
  - intros _. destruct z; reflexivity.
  - destruct sx, sy; try discriminate; intros _; destruct z; reflexivity.
  - destruct sx, sy; try discriminate.
    + destruct (Z.compare_spec ex ey); try discriminate.
      subst. intros H. injection H as H.
      destruct (Pos.compare_cont Eq mx my) eqn:E; try discriminate.
      apply Pos.compare_eq in E. subst. reflexivity.
    + destruct (Z.compare_spec ex ey); try discriminate.
      subst. intros H. injection H as H.
      apply Pos.compare_eq in H. subst. reflexivity.
Qed.

Lemma SFeqb_compare (x y : spec_float) :
  SFeqb x y = true -> SFcompare x y = Some Eq.
Proof.
  unfold SFeqb. destruct (SFcompare x y) as [[| |]|]; try discriminate.
  reflexivity.
Qed.

Lemma SFltb_irrefl (x : spec_float) : SFltb x x = false.
Proof.
  unfold SFltb. destruct x as [s|s| |s m e]; simpl; try reflexivity.
  - destruct s; reflexivity.
  - destruct s; rewrite Z.compare_refl, Pos.compare_cont_refl; reflexivity.
Qed.

Lemma SFltb_trans (x y z : spec_float) :
  SFltb x y = true -> SFltb y z = true -> SFltb x z = true.
Proof.
  unfold SFltb.
  destruct x as [sx|sx| |sx mx ex], y as [sy|sy| |sy my ey],
           z as [sz|sz| |sz mz ez]; simpl;
    try discriminate; try reflexivity;
    try (destruct sx; try discriminate; try reflexivity; fail);
    try (destruct sy; try discriminate; try reflexivity; fail);
    try (destruct sz; try discriminate; try reflexivity; fail);
    try (destruct sx, sy; try discriminate; try reflexivity; fail);
    try (destruct sy, sz; try discriminate; try reflexivity; fail);
    try (destruct sx, sz; try discriminate; try reflexivity; fail);
    try (destruct sx, sy, sz; try discriminate; try reflexivity; fail).
  destruct sx, sy, sz; try discriminate; try reflexivity.
  - destruct (Z.compare_spec ex ey), (Z.compare_spec ey ez),
      (Z.compare_spec ex ez); try discriminate; try reflexivity; try lia; subst.
    rewrite !Pos.compare_cont_spec. simpl.
    destruct (Pos.compare_spec mx my), (Pos.compare_spec my mz),
      (Pos.compare_spec mx mz); simpl; try discriminate; try reflexivity; lia.
  - destruct (Z.compare_spec ex ey), (Z.compare_spec ey ez),
      (Z.compare_spec ex ez); try discriminate; try reflexivity; try lia; subst.
    rewrite !Pos.compare_cont_spec. simpl.
    destruct (Pos.compare_spec mx my), (Pos.compare_spec my mz),
      (Pos.compare_spec mx mz); simpl; try discriminate; try reflexivity; lia.
Qed.

(** The comparisons of binary64 are those of an ordered number system. *)
Lemma binary64_ordered : ordered binary64.
Proof.
  constructor; simpl.
  - intros a. rewrite ltb_spec. apply SFltb_irrefl.
  - intros a b c H1 H2. rewrite ltb_spec in *.
    exact (SFltb_trans _ _ _ H2 H1).
  - intros a b c H. rewrite FloatAxioms.eqb_spec in H.
    apply SFeqb_compare in H. rewrite !ltb_spec. unfold SFltb.
    rewrite (SFcompare_eq_r _ _ (Prim2SF c) H). reflexivity.
  - intros a b c H. rewrite FloatAxioms.eqb_spec in H.
    apply SFeqb_compare in H. rewrite !ltb_spec. unfold SFltb.
    rewrite (SFcompare_eq_l _ _ (Prim2SF c) H). reflexivity.
Qed.

Example binary64_nan_incomparable :
  @gtb binary64 PrimFloat.nan PrimFloat.neg_infinity = false /\
  @gtb binary64 PrimFloat.neg_infinity PrimFloat.neg_infinity = false /\
  @gtb binary64 PrimFloat.zero PrimFloat.neg_infinity = true.
Proof. repeat split; reflexivity. Qed.

Example binary64_rounds :
  @sum binary64 [0.1; 0.2; 0.3]%float = 0.6000000000000001%float /\
  @sum binary64 [0.3; 0.2; 0.1]%float = 0.6%float.
Proof. split; vm_compute; reflexivity. Qed.


(** ** Sample data, evaluated *)

Example example64_run :
  @find_best_combination binary64 2 example64 (weights64 1 0)
  = Ok (Some [("A"%string, 400%float); ("B"%string, 500%float)], 8%float).
Proof. vm_compute. reflexivity. Qed.

Lemma example64_lookups : @all_lookups_succeed binary64 2 example64.
Proof.
  apply all_lookups_flat. intros P wl HP Hwl. vm_compute in HP, Hwl.
  repeat (destruct HP as [<-|HP]; [|]); try contradiction;
    repeat (destruct Hwl as [<-|Hwl]; [|]); try contradiction;
    vm_compute; discriminate.
Qed.

Lemma lone64_lookups : @all_lookups_succeed binary64 2 lone64.
Proof.
  apply all_lookups_flat. intros P wl HP Hwl. vm_compute in HP, Hwl.
  repeat (destruct HP as [<-|HP]; [|]); try contradiction;
    repeat (destruct Hwl as [<-|Hwl]; [|]); try contradiction;
    vm_compute; discriminate.
Qed.

Lemma huge64_lookups : @all_lookups_succeed binary64 2 huge64.
Proof.
  apply all_lookups_flat. intros P wl HP Hwl. vm_compute in HP, Hwl.
  repeat (destruct HP as [<-|HP]; [|]); try contradiction;
    repeat (destruct Hwl as [<-|Hwl]; [|]); try contradiction;
    vm_compute; discriminate.
Qed.

(** * The specification's properties, over machine numbers *)

(** ** C2 *)

(** C2.  For an assignment [c] of [n] pairs whose lookups all succeed,
    [calculate_S_score n c data w] returns the sum, taken from [0] by
    increasing position [i], of [ownScore i - penalty i], where
    [ownScore i] is the weighted response of [P_i] at [w_i] and [penalty i]
    is the sum, taken from [0] by increasing position [j], of the weighted
    responses of the other [P_j] at the wavelength [w_i]; the operations
    are those of the numbers the program computes with. *)
Theorem C2_score_formula {A : Arith} (n : Z) (data : catalog) (w : weights)
    (c : combination) :
  Z.of_nat (length c) = n ->
  lookups_succeed data c ->
  calculate_S_score n c data w = Ok (score_spec data w c).
Proof.
  intros <- Hlook. apply calculate_S_score_formula. exact Hlook.
Qed.

Lemma C2_witness :
  @calculate_S_score binary64 2 [("A"%string, 400%float); ("B"%string, 500%float)]
                     decimals64 (weights64 0.5 0.5)
  = Ok (@score_spec binary64 decimals64 (weights64 0.5 0.5)
                    [("A"%string, 400%float); ("B"%string, 500%float)]).
Proof.
  apply (@C2_score_formula binary64 2 decimals64 (weights64 0.5 0.5)
           [("A"%string, 400%float); ("B"%string, 500%float)]).
  - reflexivity.
  - intros P wl HP Hwl. simpl in HP, Hwl.
    destruct HP as [<-|[<-|[]]]; destruct Hwl as [<-|[<-|[]]];
      vm_compute; discriminate.
Defined.

(** ** C1 *)

(** C1, as stated, fails in two ways.  With one nanoparticle and [n = 2]
    no valid candidate exists and the call returns [(None, -inf)].  With two
    nanoparticles whose efficiencies overflow under the weights, a valid
    candidate exists and every lookup succeeds, but its score is
    [inf - inf], a not-a-number, which is not greater than [-inf]: the call
    again returns [(None, -inf)]. *)
Lemma C1_counterexample :
  (lone64 <> [] /\ (1 <= 2)%Z /\ @all_lookups_succeed binary64 2 lone64 /\
   @find_best_combination binary64 2 lone64 (weights64 1 1)
   = Ok (None, PrimFloat.neg_infinity)) /\
  (huge64 <> [] /\ (1 <= 2)%Z /\ @all_lookups_succeed binary64 2 huge64 /\
   @valid_candidate binary64 2 huge64
      [("A"%string, 400%float); ("B"%string, 400%float)] /\
   @find_best_combination binary64 2 huge64 (weights64 10 0)
   = Ok (None, PrimFloat.neg_infinity)).
Proof.
  split.
  - split; [discriminate|]. split; [lia|]. split; [exact lone64_lookups|].
    vm_compute. reflexivity.
  - split; [discriminate|]. split; [lia|]. split; [exact huge64_lookups|].
    split.
    + split; [reflexivity|]. split.
      * vm_compute. repeat constructor.
      * simpl. repeat constructor; simpl; intuition discriminate.
    + vm_compute. reflexivity.
Qed.

(** C1 (amended).  For a non-empty catalog and [n >= 1] for which every
    scoring lookup succeeds: if some valid candidate has a score greater
    than [-inf], the call returns a valid candidate together with its
    score, and no valid candidate has a greater score; if no valid
    candidate has a score greater than [-inf] (none exists, or every score
    is [-inf] or a not-a-number), it returns [(None, -inf)]. *)
Theorem C1_optimal {A : Arith} (n : Z) (data : catalog) (w : weights) :
  ordered A ->
  data <> [] -> (1 <= n)%Z -> all_lookups_succeed n data ->
  ((exists c s, valid_candidate n data c /\
                calculate_S_score n c data w = Ok s /\
                gtb s neg_inf = true) ->
   returns_best n data w) /\
  ((forall c s, valid_candidate n data c ->
                calculate_S_score n c data w = Ok s ->
                gtb s neg_inf = false) ->
   find_best_combination n data w = Ok (None, neg_inf)).
Proof.
  intros Hord Hne Hn Hall.
  assert (Hn0 : (0 <= n)%Z) by lia.
  pose proof (all_lookups_scores_num n data w Hn0 Hall) as Hsc.
  unfold returns_best, find_best_combination.
  rewrite (find_best_combination_run_eq_num n data w Hne Hn0).
  destruct (search_loop_total_num n data w (candidates n data) Hsc None neg_inf)
    as (tr & b & m & L).
  rewrite L. simpl.
  destruct (search_loop_inv_num Hord n data w _ _ _ _ _ _ L)
    as [(-> & -> & Hle)|(c & -> & G & FB)].
  - split; [|reflexivity].
    intros (c0 & s0 & Hc0 & Hs0 & G0). exfalso.
    apply (valid_candidate_iff_num n data c0 Hn0) in Hc0. destruct Hc0 as (Hin & Hv).
    rewrite (Hle c0 s0 Hin Hv Hs0) in G0. discriminate.
  - destruct FB as (pre & post & E & V & Sc & Hpre & Hpost).
    assert (Hin : In c (candidates n data))
      by (rewrite E; apply in_or_app; right; left; reflexivity).
    assert (Hvc : valid_candidate n data c)
      by (apply valid_candidate_iff_num; auto).
    split.
    + intros _. exists c, m. split; [reflexivity|]. split; [exact Hvc|].
      split; [exact Sc|].
      intros c' s' Hc' Hs'.
      apply (valid_candidate_iff_num n data c' Hn0) in Hc'. destruct Hc' as (Hin' & Hv').
      rewrite E in Hin'. apply in_app_or in Hin'.
      destruct Hin' as [Hin'|[<-|Hin']].
      * apply (Hpre c' s' Hin' Hv' Hs').
      * rewrite Sc in Hs'. injection Hs' as <-. apply (gtb_irrefl A Hord).
      * apply (Hpost c' s' Hin' Hv' Hs').
    + intros Hnone. rewrite (Hnone c m Hvc Sc) in G. discriminate.
Qed.

Lemma C1_witness :
  @returns_best binary64 2 example64 (weights64 1 0).
Proof.
  refine (proj1 (@C1_optimal binary64 2 example64 (weights64 1 0)
                   binary64_ordered _ _ example64_lookups) _).
  - discriminate.
  - lia.
  - exists [("A"%string, 400%float); ("B"%string, 500%float)], 8%float.
    split; [|split; vm_compute; reflexivity].
    split; [reflexivity|]. split.
    + vm_compute. repeat constructor.
    + simpl. repeat constructor; simpl; intuition discriminate.
Defined.

(** ** C7 *)

(** C7, as stated, fails when the scores do not exceed [-inf]: here both
    candidates are valid and attain the same, maximal, score [-inf] (ten
    times the efficiency overflows), and neither is returned. *)
Lemma C7_counterexample :
  @candidates binary64 1 low64
  = [[("A"%string, 400%float)]; [("A"%string, 500%float)]] /\
  @valid_combination binary64 [("A"%string, 400%float)] = true /\
  @valid_combination binary64 [("A"%string, 500%float)] = true /\
  @calculate_S_score binary64 1 [("A"%string, 400%float)] low64 (weights64 10 0)
  = Ok PrimFloat.neg_infinity /\
  @calculate_S_score binary64 1 [("A"%string, 500%float)] low64 (weights64 10 0)
  = Ok PrimFloat.neg_infinity /\
  @find_best_combination binary64 1 low64 (weights64 10 0)
  = Ok (None, PrimFloat.neg_infinity).
Proof. repeat split; vm_compute; reflexivity. Qed.

(** C7 (amended).  The flat list is ordered by identifier and then by
    wavelength; the candidates are the tuples picked at the size-[n] tuples
    of positions of the flat list, in increasing lexicographic order; the
    state starts as [(None, -inf)] and changes only on a strictly greater
    score.  So a call that returns an assignment returns the first
    candidate, in that order, whose score none exceeds: every valid
    candidate before it has a score neither greater than nor equal to its
    score, no valid candidate after it has a greater one.  And a call that
    returns [None] returns it with [-inf], no valid candidate having a score
    greater than [-inf]. *)
Theorem C7_first_unexceeded {A : Arith} (n : Z) (data : catalog) (w : weights)
    (best : option combination) (m : num) :
  ordered A ->
  find_best_combination n data w = Ok (best, m) ->
  (forall k first rest a b,
      data = (k, first) :: rest ->
      (a < length data)%nat -> (b < length (wavelengths_of first))%nat ->
      nth_error (flat data) (a * length (wavelengths_of first) + b)
      = Some (nth a (map fst data) EmptyString,
              nth b (wavelengths_of first) zero)) /\
  candidates n data
  = map (pick (EmptyString, zero) (flat data))
        (combinations (seq 0 (length (flat data))) (Z.to_nat n)) /\
  StronglySorted lex_lt (combinations (seq 0 (length (flat data))) (Z.to_nat n)) /\
  ((best = None /\ m = neg_inf /\
    forall c s, In c (candidates n data) -> valid_combination c = true ->
                calculate_S_score n c data w = Ok s -> gtb s neg_inf = false)
   \/
   (exists c, best = Some c /\ gtb m neg_inf = true /\
              first_best n data w (candidates n data) c m)).
Proof.
  intros Hord H. split; [|split; [|split]].
  - intros k first rest a b -> Ha Hb. unfold flat.
    apply pairings_nth; [rewrite length_map; exact Ha | exact Hb].
  - apply combinations_positions.
  - apply combinations_seq_sorted.
  - unfold find_best_combination in H.
    assert (Hne : data <> []) by (intros ->; discriminate).
    assert (Hn0 : (0 <= n)%Z).
    { unfold find_best_combination_run in H.
      destruct data as [|e rest]; [congruence|].
      destruct (n <? 0)%Z eqn:E; [discriminate|]. apply Z.ltb_ge in E. exact E. }
    rewrite (find_best_combination_run_eq_num n data w Hne Hn0) in H.
    destruct (search_loop n data w (candidates n data) None neg_inf)
      as [tr r] eqn:L.
    simpl in H. subst r.
    destruct (search_loop_inv_num Hord n data w _ _ _ _ _ _ L)
      as [(-> & -> & Hle)|(c & -> & G & FB)].
    + left. auto.
    + right. exists c. auto.
Qed.

Lemma C7_witness :
  @first_best binary64 2 example64 (weights64 1 0)
              (@candidates binary64 2 example64)
              [("A"%string, 400%float); ("B"%string, 500%float)] 8%float.
Proof.
  destruct (@C7_first_unexceeded binary64 2 example64 (weights64 1 0)
              (Some [("A"%string, 400%float); ("B"%string, 500%float)]) 8%float
              binary64_ordered)
    as (_ & _ & _ & [(Hb & _)|(c & Hb & _ & FB)]).
  - vm_compute. reflexivity.
  - discriminate.
  - injection Hb as <-. exact FB.
Defined.

(** ** C9 *)



Lemma example64_candidates (c : combination) :
  @valid_candidate binary64 2 example64 c ->
  c = [("A"%string, 400%float); ("B"%string, 400%float)] \/
  c = [("A"%string, 400%float); ("B"%string, 500%float)] \/
  c = [("A"%string, 500%float); ("B"%string, 400%float)] \/
  c = [("A"%string, 500%float); ("B"%string, 500%float)].
Proof.
  intros H. apply valid_candidate_iff_num in H; [|lia]. destruct H as (Hin & Hv).
  vm_compute in Hin.
  repeat (destruct Hin as [<-|Hin]; [vm_compute in Hv; try discriminate; tauto|]).
  destruct Hin.
Qed.



End NumericFacts.
